(** * Crawler front end: URL validator, task client and task orchestrator

    A shallow embedding of the JavaScript front end
    ([utils/validateUrl.js], [services/crawlService.js], [App.js]) and the
    properties of its start/poll life cycle. *)

From Stdlib Require Import List String Ascii Bool Arith Lia.
From Stdlib Require Import DecimalString.
Import ListNotations.

(* ================================================================== *)
(** * Regular expressions, as [RegExp.prototype.test] decides them   *)
(* ================================================================== *)

(** The pattern of [validateUrl.js] is anchored at both ends ([^ ... $]), has
    no back-references and no look-around, so [pattern.test(url)] holds
    exactly when the whole of [url] belongs to the language of the pattern.
    The matcher below decides that membership by Brzozowski derivatives.
    Characters are code units; all classes of the pattern are ASCII, and
    without the [u] flag the [i] flag never folds a non-ASCII unit onto an
    ASCII one, so a unit above 127 matches no class. *)

Module Regex.

(** One member of a character class: a character, a range [lo-hi], or the
    escape for decimal digits. *)
Inductive cset_item : Type :=
| CChar (c : ascii)
| CRange (lo hi : ascii)
| CDigit.

Definition cset := list cset_item.

Inductive regex : Type :=
| RNull                         (* matches nothing *)
| REps                          (* matches the empty string *)
| RSet (cs : cset)              (* one character of a class *)
| RSeq (a b : regex)
| RAlt (a b : regex)
| RStar (a : regex).

Definition in_range (lo hi c : ascii) : bool :=
  (nat_of_ascii lo <=? nat_of_ascii c) && (nat_of_ascii c <=? nat_of_ascii hi).

Definition to_upper (c : ascii) : ascii :=
  if in_range "a" "z" c then ascii_of_nat (nat_of_ascii c - 32) else c.

Definition to_lower (c : ascii) : ascii :=
  if in_range "A" "Z" c then ascii_of_nat (nat_of_ascii c + 32) else c.

Definition item_has (i : cset_item) (c : ascii) : bool :=
  match i with
  | CChar x => Ascii.eqb x c
  | CRange lo hi => in_range lo hi c
  | CDigit => in_range "0" "9" c
  end.

(** Membership in a class; with [icase] (the [i] flag) a character matches
    when one of its two cases is a member. *)
Definition cset_mem (icase : bool) (cs : cset) (c : ascii) : bool :=
  existsb (fun i => item_has i c
                    || (icase && (item_has i (to_lower c) || item_has i (to_upper c))))
          cs.

(** Derived forms of the pattern syntax. *)
Definition chr (c : ascii) : regex := RSet [CChar c].
Definition opt (r : regex) : regex := RAlt r REps.               (* r?     *)
Definition plus (r : regex) : regex := RSeq r (RStar r).         (* r+     *)

Fixpoint lit (s : string) : regex :=
  match s with
  | EmptyString => REps
  | String c s' => RSeq (chr c) (lit s')
  end.

Fixpoint rep (n : nat) (r : regex) : regex :=                    (* r{n}   *)
  match n with
  | O => REps
  | S n' => RSeq r (rep n' r)
  end.

Fixpoint upto (n : nat) (r : regex) : regex :=                   (* r{0,n} *)
  match n with
  | O => REps
  | S n' => opt (RSeq r (upto n' r))
  end.

Definition rep_range (lo hi : nat) (r : regex) : regex :=        (* r{lo,hi} *)
  RSeq (rep lo r) (upto (hi - lo) r).

Definition rep_min (lo : nat) (r : regex) : regex :=             (* r{lo,} *)
  RSeq (rep lo r) (RStar r).

Definition cset_item_eq_dec (a b : cset_item) : {a = b} + {a <> b}.
Proof. decide equality; apply ascii_dec. Defined.

Definition regex_eq_dec (a b : regex) : {a = b} + {a <> b}.
Proof. decide equality. apply (list_eq_dec cset_item_eq_dec). Defined.

(** Constructors that drop [RNull] and repeated alternatives, so that the
    derivatives stay small. *)
Definition mk_seq (a b : regex) : regex :=
  match a, b with
  | RNull, _ => RNull
  | _, RNull => RNull
  | REps, _ => b
  | _, _ => RSeq a b
  end.

Definition mk_alt (a b : regex) : regex :=
  match a, b with
  | RNull, _ => b
  | _, RNull => a
  | _, _ => if regex_eq_dec a b then a else RAlt a b
  end.

Fixpoint nullable (r : regex) : bool :=
  match r with
  | RNull => false
  | REps => true
  | RSet _ => false
  | RSeq a b => nullable a && nullable b
  | RAlt a b => nullable a || nullable b
  | RStar _ => true
  end.

Section Matcher.
Variable icase : bool.

Fixpoint deriv (c : ascii) (r : regex) : regex :=
  match r with
  | RNull => RNull
  | REps => RNull
  | RSet cs => if cset_mem icase cs c then REps else RNull
  | RSeq a b =>
      if nullable a
      then mk_alt (mk_seq (deriv c a) b) (deriv c b)
      else mk_seq (deriv c a) b
  | RAlt a b => mk_alt (deriv c a) (deriv c b)
  | RStar a => mk_seq (deriv c a) (RStar a)
  end.

Fixpoint matches (r : regex) (s : list ascii) : bool :=
  match s with
  | [] => nullable r
  | c :: s' => matches (deriv c r) s'
  end.

(** The language of a pattern, as sets of strings. *)
Fixpoint lang (r : regex) (s : list ascii) : Prop :=
  match r with
  | RNull => False
  | REps => s = []
  | RSet cs => exists c, s = [c] /\ cset_mem icase cs c = true
  | RSeq a b => exists s1 s2, s = s1 ++ s2 /\ lang a s1 /\ lang b s2
  | RAlt a b => lang a s \/ lang b s
  | RStar a => exists ss, s = List.concat ss /\ Forall (lang a) ss
  end.
End Matcher.

(** All characters of [s] belong to the class [cs]. *)
Definition in_set (icase : bool) (cs : cset) (s : list ascii) : Prop :=
  Forall (fun c => cset_mem icase cs c = true) s.

(** The 256 characters. *)
Definition all_ascii : list ascii := map ascii_of_nat (seq 0 256).

(** With the flag [i], the character [x] of a pattern matches exactly the
    characters whose lower case it is. *)
Definition folds_to (x : ascii) : Prop :=
  forall c, cset_mem true [CChar x] c = Ascii.eqb (to_lower c) x.

(** [new RegExp(src, flags).test(str)] for an anchored pattern. *)
Definition test (icase : bool) (r : regex) (str : string) : bool :=
  matches icase r (list_ascii_of_string str).

End Regex.

(* ================================================================== *)
(** * utils/validateUrl.js                                           *)
(* ================================================================== *)

Module ValidateUrl.
Import Regex.

Local Open Scope char_scope.

(** [[a-z\d]] and [[a-z\d-]] *)
Definition alnum : cset := [CRange "a" "z"; CDigit].
Definition alnum_dash : cset := [CRange "a" "z"; CDigit; CChar "-"].
(** [\d] and [[a-z]] *)
Definition digit : cset := [CDigit].
Definition alpha : cset := [CRange "a" "z"].
(** [[-a-z\d%_.~+]] *)
Definition path_chars : cset :=
  [CChar "-"; CRange "a" "z"; CDigit; CChar "%"; CChar "_"; CChar "."; CChar "~"; CChar "+"].
(** [[;&a-z\d%_.~+=-]] *)
Definition query_chars : cset :=
  [CChar ";"; CChar "&"; CRange "a" "z"; CDigit; CChar "%"; CChar "_"; CChar ".";
   CChar "~"; CChar "+"; CChar "="; CChar "-"].
(** [[-a-z\d_]] *)
Definition fragment_chars : cset :=
  [CChar "-"; CRange "a" "z"; CDigit; CChar "_"].

(** protocol: ( https? : \/ \/ )? *)
Definition protocol : regex :=
  opt (RSeq (lit "http") (RSeq (opt (chr "s")) (lit "://"))).

(** label: [a-z\d] ( [a-z\d-]* [a-z\d] )* *)
Definition label : regex :=
  RSeq (RSet alnum) (RStar (RSeq (RStar (RSet alnum_dash)) (RSet alnum))).

(** domain name: ( label \. )+ [a-z]{2,} *)
Definition domain_name : regex :=
  RSeq (plus (RSeq label (chr "."))) (rep_min 2 (RSet alpha)).

(** ip (v4) address: ( \d{1,3} \. ){3} \d{1,3} *)
Definition ip_v4 : regex :=
  RSeq (rep 3 (RSeq (rep_range 1 3 (RSet digit)) (chr ".")))
       (rep_range 1 3 (RSet digit)).

(** port: ( \: \d+ )? *)
Definition port : regex := opt (RSeq (chr ":") (plus (RSet digit))).

(** path: ( \/ [-a-z\d%_.~+]* )* *)
Definition path : regex := RStar (RSeq (chr "/") (RStar (RSet path_chars))).

(** query string: ( \? [;&a-z\d%_.~+=-]* )? *)
Definition query : regex := opt (RSeq (chr "?") (RStar (RSet query_chars))).

(** fragment locator: ( \# [-a-z\d_]* )? *)
Definition fragment : regex := opt (RSeq (chr "#") (RStar (RSet fragment_chars))).

(** The whole pattern, between [^] and [$], built with the flag [i]. *)
Definition pattern : regex :=
  RSeq protocol
    (RSeq (RAlt domain_name ip_v4)
       (RSeq port (RSeq path (RSeq query fragment)))).

(** [const validateUrl = (url) => { ...; return !!pattern.test(url); }] *)
Definition validateUrl (url : string) : bool := test true pattern url.

End ValidateUrl.

(* ================================================================== *)
(** * The seed grammar of the design document                         *)
(* ================================================================== *)

(** A second, independent description of the accepted seeds, following the
    words of the design document: an optional scheme restricted to http or
    https, a host name made of dot-separated labels or a dotted quad, an
    optional port, an optional path, query and fragment.  It is compared with
    [ValidateUrl.validateUrl] below. *)

Module SeedGrammar.
Import Regex.

Local Open Scope char_scope.

Definition is_digit (c : ascii) : bool := in_range "0" "9" c.
Definition is_letter (c : ascii) : bool := in_range "a" "z" c || in_range "A" "Z" c.
Definition is_alnum (c : ascii) : bool := is_letter c || is_digit c.
Definition is_one_of (cs : list ascii) (c : ascii) : bool := existsb (Ascii.eqb c) cs.

Definition label_char (c : ascii) : bool := is_alnum c || is_one_of ["-"] c.
Definition path_char (c : ascii) : bool :=
  is_alnum c || is_one_of ["-"; "%"; "_"; "."; "~"; "+"] c.
Definition query_char (c : ascii) : bool :=
  is_alnum c || is_one_of [";"; "&"; "%"; "_"; "."; "~"; "+"; "="; "-"] c.
Definition fragment_char (c : ascii) : bool :=
  is_alnum c || is_one_of ["-"; "_"] c.

Definition all (p : ascii -> bool) (s : list ascii) : Prop :=
  Forall (fun c => p c = true) s.

(** Scheme: absent, or http:// or https:// in any letter case. *)
Definition scheme (s : list ascii) : Prop :=
  s = [] \/
  map to_lower s = list_ascii_of_string "http://" \/
  map to_lower s = list_ascii_of_string "https://".

(** A host label starts and ends with a letter or digit and has letters,
    digits and hyphens in between. *)
Definition host_label (l : list ascii) : Prop :=
  match l with
  | [] => False
  | c :: rest =>
      is_alnum c = true /\ all label_char rest /\ is_alnum (last rest c) = true
  end.

(** Dot-separated labels: one or more labels, each followed by a dot, then a
    top-level name of at least two letters. *)
Definition dotted_name (h : list ascii) : Prop :=
  exists (pieces : list (list ascii)) (tld : list ascii),
    h = List.concat pieces ++ tld /\
    pieces <> [] /\
    Forall (fun p => exists l, p = l ++ ["."] /\ host_label l) pieces /\
    2 <= List.length tld /\ all is_letter tld.

(** One to three decimal digits. *)
Definition quad_part (s : list ascii) : Prop :=
  1 <= List.length s <= 3 /\ all is_digit s.

Definition dotted_quad (h : list ascii) : Prop :=
  exists a b c d,
    h = (a ++ ["."]) ++ (b ++ ["."]) ++ (c ++ ["."]) ++ d /\
    quad_part a /\ quad_part b /\ quad_part c /\ quad_part d.

Definition hostname (h : list ascii) : Prop := dotted_name h \/ dotted_quad h.

Definition port (s : list ascii) : Prop :=
  s = [] \/ exists ds, s = ":" :: ds /\ ds <> [] /\ all is_digit ds.

Definition path (s : list ascii) : Prop :=
  exists segs, s = List.concat segs /\
               Forall (fun seg => exists cs, seg = "/" :: cs /\ all path_char cs) segs.

Definition query (s : list ascii) : Prop :=
  s = [] \/ exists cs, s = "?" :: cs /\ all query_char cs.

Definition fragment (s : list ascii) : Prop :=
  s = [] \/ exists cs, s = "#" :: cs /\ all fragment_char cs.

Definition acceptable_seed (s : list ascii) : Prop :=
  exists sch host prt pth qry frg,
    s = sch ++ host ++ prt ++ pth ++ qry ++ frg /\
    scheme sch /\ hostname host /\ port prt /\ path pth /\ query qry /\ fragment frg.

(** No colon occurs in [s]. *)
Definition colon_free (s : list ascii) : Prop := ~ In ":" s.

End SeedGrammar.

(* ================================================================== *)
(** * JavaScript values, exceptions and the asynchronous calls        *)
(* ================================================================== *)

Module Js.

Local Open Scope string_scope.

(** The values the front end handles: what [response.json()] resolves to,
    and [undefined].  A number is kept as its decimal text, an object as its
    own properties in order. *)
#[warnings="-register-all"] Inductive value : Type :=
| VUndefined
| VNull
| VBool (b : bool)
| VNumber (text : string)
| VString (s : string)
| VArray (items : list value)
| VObject (props : list (string * value)).

(** What is thrown: [new Error(message)] of crawlService.js, the rejection of
    [fetch()] or of [response.json()], and the engine's own error for a
    property read on [null] or [undefined]. *)
Inductive exn : Type :=
| Error (message : string)
| Rejection (reason : string)
| TypeError (message : string).

(** [error.message] *)
Definition message (e : exn) : string :=
  match e with
  | Error m => m
  | Rejection m => m
  | TypeError m => m
  end.

Fixpoint lookup (key : string) (props : list (string * value)) : option value :=
  match props with
  | [] => None
  | (k, v) :: rest => if String.eqb k key then Some v else lookup key rest
  end.

(** [v.key] for the property names the front end reads ([task_id],
    [status], [crawled_data]): a missing property is [undefined], a read on
    [null] or [undefined] throws. *)
Definition get (v : value) (key : string) : exn + value :=
  match v with
  | VUndefined =>
      inl (TypeError ("Cannot read properties of undefined (reading '" ++ key ++ "')"))
  | VNull =>
      inl (TypeError ("Cannot read properties of null (reading '" ++ key ++ "')"))
  | VObject props =>
      inr (match lookup key props with Some x => x | None => VUndefined end)
  | _ => inr VUndefined
  end.

(** [a === 'text'] *)
Definition strict_eq_string (a : value) (text : string) : bool :=
  match a with
  | VString s => String.eqb s text
  | _ => false
  end.

Fixpoint join (sep : string) (parts : list string) : string :=
  match parts with
  | [] => ""
  | [p] => p
  | p :: rest => p ++ sep ++ join sep rest
  end.

(** The text a template literal puts in place of [v]. *)
Fixpoint to_string (v : value) : string :=
  match v with
  | VUndefined => "undefined"
  | VNull => "null"
  | VBool true => "true"
  | VBool false => "false"
  | VNumber text => text
  | VString s => s
  | VArray items =>
      join "," (map (fun x => match x with
                              | VUndefined | VNull => ""
                              | _ => to_string x
                              end) items)
  | VObject _ => "[object Object]"
  end.

(** Decimal text of a status code. *)
Definition show_nat (n : nat) : string := NilEmpty.string_of_uint (Nat.to_uint n).

(** ** fetch *)

Inductive method : Type := GET | POST.

Record request : Type := {
  req_method : method;
  req_url : string;
  req_headers : list (string * string);
  req_body : option value            (* the value given to JSON.stringify *)
}.

(** A response: its status and what [response.json()] settles to (the
    parsed body, or the reason it rejects with). *)
Record response : Type := {
  status : nat;
  json : string + value
}.

(** [response.ok] *)
Definition ok (r : response) : bool :=
  Nat.leb 200 (status r) && Nat.leb (status r) 299.

(** How [fetch()] settles: with a response, or rejected by the transport. *)
Inductive fetch_outcome : Type :=
| Resolved (r : response)
| Failed (reason : string).

(** An asynchronous computation: it returns, throws, or awaits a fetch. *)
Inductive async (A : Type) : Type :=
| Return (a : A)
| Throw (e : exn)
| Fetch (req : request) (k : fetch_outcome -> async A).

Arguments Return {A} a.
Arguments Throw {A} e.
Arguments Fetch {A} req k.

Fixpoint bind {A B : Type} (m : async A) (f : A -> async B) : async B :=
  match m with
  | Return a => f a
  | Throw e => Throw e
  | Fetch req k => Fetch req (fun o => bind (k o) f)
  end.

(** [await fetch(req)] *)
Definition fetch (req : request) : async response :=
  Fetch req (fun o => match o with
                      | Resolved r => Return r
                      | Failed reason => Throw (Rejection reason)
                      end).

(** [await response.json()] *)
Definition read_json (r : response) : async value :=
  match json r with
  | inr v => Return v
  | inl reason => Throw (Rejection reason)
  end.


End Js.

(* ================================================================== *)
(** * services/crawlService.js                                        *)
(* ================================================================== *)

Module CrawlService.
Import Js.

Local Open Scope string_scope.

Notation "x <- m ;; f" := (bind m (fun x => f))
  (at level 61, m at next level, right associativity).

Definition BACKEND_BASE_URL : string := "http://localhost:8000".

Definition startCrawl (startUrl : string) : async value :=
  let apiUrl := BACKEND_BASE_URL ++ "/start-crawl" in
  response <- fetch {| req_method := POST;
                       req_url := apiUrl;
                       req_headers := [("Content-Type", "application/json")];
                       req_body := Some (VObject [("start_url", VString startUrl)]) |} ;;
  if negb (ok response)
  then Throw (Error ("HTTP error! status: " ++ show_nat (status response)))
  else read_json response.

Definition checkTaskStatus (taskId : value) : async value :=
  response <- fetch {| req_method := GET;
                       req_url := BACKEND_BASE_URL ++ "/task-status/" ++ to_string taskId;
                       req_headers := [];
                       req_body := None |} ;;
  if negb (ok response)
  then if Nat.eqb (status response) 404
       then Throw (Error "Task not found.")
       else Throw (Error ("HTTP error! status: " ++ show_nat (status response)))
  else read_json response.

End CrawlService.

(* ================================================================== *)
(** * App.js: the component state and its event handlers              *)
(* ================================================================== *)

Module App.
Import Js.

Local Open Scope string_scope.

(** The [useState] cells of the component. *)
Record state : Type := {
  startUrl : string;
  taskId : value;
  taskStatus : value;
  crawledData : value;
  loading : bool;
  isUrlValid : bool;
  errorMessage : string
}.

Definition initial_state : state :=
  {| startUrl := ""; taskId := VString ""; taskStatus := VString "";
     crawledData := VObject []; loading := false; isUrlValid := true;
     errorMessage := "" |}.

Definition setStartUrl (v : string) (s : state) : state :=
  {| startUrl := v; taskId := taskId s; taskStatus := taskStatus s;
     crawledData := crawledData s; loading := loading s;
     isUrlValid := isUrlValid s; errorMessage := errorMessage s |}.

Definition setTaskId (v : value) (s : state) : state :=
  {| startUrl := startUrl s; taskId := v; taskStatus := taskStatus s;
     crawledData := crawledData s; loading := loading s;
     isUrlValid := isUrlValid s; errorMessage := errorMessage s |}.

Definition setTaskStatus (v : value) (s : state) : state :=
  {| startUrl := startUrl s; taskId := taskId s; taskStatus := v;
     crawledData := crawledData s; loading := loading s;
     isUrlValid := isUrlValid s; errorMessage := errorMessage s |}.

Definition setCrawledData (v : value) (s : state) : state :=
  {| startUrl := startUrl s; taskId := taskId s; taskStatus := taskStatus s;
     crawledData := v; loading := loading s;
     isUrlValid := isUrlValid s; errorMessage := errorMessage s |}.

Definition setLoading (v : bool) (s : state) : state :=
  {| startUrl := startUrl s; taskId := taskId s; taskStatus := taskStatus s;
     crawledData := crawledData s; loading := v;
     isUrlValid := isUrlValid s; errorMessage := errorMessage s |}.

Definition setIsUrlValid (v : bool) (s : state) : state :=
  {| startUrl := startUrl s; taskId := taskId s; taskStatus := taskStatus s;
     crawledData := crawledData s; loading := loading s;
     isUrlValid := v; errorMessage := errorMessage s |}.

Definition setErrorMessage (v : string) (s : state) : state :=
  {| startUrl := startUrl s; taskId := taskId s; taskStatus := taskStatus s;
     crawledData := crawledData s; loading := loading s;
     isUrlValid := isUrlValid s; errorMessage := v |}.

(** The task fields shown to the user: id, status and crawled data. *)
Definition snapshot (s : state) : value * value * value :=
  (taskId s, taskStatus s, crawledData s).

(** ** The runtime around the component *)

(** Where an awaited service call resumes: in [startCrawl], or in the
    callback of the interval [statusInterval]. *)
Inductive continuation : Type :=
| AfterSubmit
| AfterStatus (statusInterval : nat).

(** A timer made by [setInterval(callback, delay)]; the callback closes
    over the [taskId] argument of [checkTaskStatus]. *)
Record interval : Type := {
  handle : nat;
  delay : nat;
  polled : value
}.

(** A fetch that has not settled: the rest of the service call and the
    handler that awaits it. *)
Record pending : Type := {
  p_id : nat;
  p_k : fetch_outcome -> async value;
  p_cont : continuation
}.

Record world : Type := {
  app : state;
  intervals : list interval;                (* active timers *)
  inflight : list pending;                  (* unsettled fetches *)
  sent : list (continuation * request);     (* every request made, in order *)
  next_handle : nat;
  next_request : nat
}.

Definition initial_world : world :=
  {| app := initial_state; intervals := []; inflight := []; sent := [];
     next_handle := 0; next_request := 0 |}.

Definition with_app (f : state -> state) (w : world) : world :=
  {| app := f (app w); intervals := intervals w; inflight := inflight w;
     sent := sent w; next_handle := next_handle w; next_request := next_request w |}.

(** [setInterval(callback, delay)] *)
Definition setInterval (taskId : value) (delay : nat) (w : world) : world :=
  {| app := app w;
     intervals := (intervals w ++ [{| handle := next_handle w; delay := delay;
                                      polled := taskId |}])%list;
     inflight := inflight w; sent := sent w;
     next_handle := S (next_handle w); next_request := next_request w |}.

(** [clearInterval(h)] *)
Definition clearInterval (h : nat) (w : world) : world :=
  {| app := app w;
     intervals := filter (fun i => negb (Nat.eqb (handle i) h)) (intervals w);
     inflight := inflight w; sent := sent w;
     next_handle := next_handle w; next_request := next_request w |}.

Definition issue (req : request) (k : fetch_outcome -> async value)
           (c : continuation) (w : world) : world :=
  {| app := app w; intervals := intervals w;
     inflight := (inflight w ++ [{| p_id := next_request w; p_k := k; p_cont := c |}])%list;
     sent := (sent w ++ [(c, req)])%list;
     next_handle := next_handle w; next_request := S (next_request w) |}.

(** ** checkTaskStatus: the interval and its callback *)

Definition POLL_DELAY : nat := 2000.

(** [checkTaskStatus(taskId)]: [setInterval(async () => { ... }, 2000)] *)
Definition checkTaskStatus (taskId : value) (w : world) : world :=
  setInterval taskId POLL_DELAY w.

(** The [catch] block of the interval callback. *)
Definition status_catch (statusInterval : nat) (error : exn) (w : world) : world :=
  let w := with_app (setErrorMessage ("Network error: " ++ message error)) w in
  let w := clearInterval statusInterval w in
  with_app (setLoading false) w.

(** The [try] block of the interval callback, after the [await]. *)
Definition status_then (statusInterval : nat) (data : value) (w : world) : world :=
  match get data "status" with
  | inl error => status_catch statusInterval error w
  | inr st =>
      let w := with_app (setTaskStatus st) w in
      if strict_eq_string st "completed" || strict_eq_string st "failed"
      then
        let w := clearInterval statusInterval w in
        let w := with_app (setLoading false) w in
        if strict_eq_string st "completed"
        then match get data "crawled_data" with
             | inl error => status_catch statusInterval error w
             | inr cd => with_app (setCrawledData cd) w
             end
        else with_app (setErrorMessage "Task failed.") w
      else w
  end.

(** ** startCrawl *)

(** The [catch] block of [startCrawl]. *)
Definition submit_catch (error : exn) (w : world) : world :=
  let w := with_app (setErrorMessage ("Network error: " ++ message error)) w in
  with_app (setLoading false) w.

(** The [try] block of [startCrawl], after the [await]. *)
Definition submit_then (data : value) (w : world) : world :=
  match get data "task_id" with
  | inl error => submit_catch error w
  | inr id =>
      let w := with_app (setTaskId id) w in
      checkTaskStatus id w
  end.

(** Running an awaited service call until it needs the network, then handing
    its result to the handler that awaits it. *)
Definition run (m : async value) (c : continuation) (w : world) : world :=
  match m with
  | Fetch req k => issue req k c w
  | Return data =>
      match c with
      | AfterSubmit => submit_then data w
      | AfterStatus h => status_then h data w
      end
  | Throw error =>
      match c with
      | AfterSubmit => submit_catch error w
      | AfterStatus h => status_catch h error w
      end
  end.

Definition startCrawl (w : world) : world :=
  if negb (ValidateUrl.validateUrl (startUrl (app w)))
  then
    let w := with_app (setIsUrlValid false) w in
    with_app (setErrorMessage "Invalid URL.") w
  else
    let w := with_app (setLoading true) w in
    let w := with_app (setIsUrlValid true) w in
    let w := with_app (setErrorMessage "") w in
    run (CrawlService.startCrawl (startUrl (app w))) AfterSubmit w.

(** ** The other handlers and the events *)

Definition handleUrlChange (v : string) (w : world) : world :=
  let w := with_app (setStartUrl v) w in
  with_app (setIsUrlValid true) w.

Definition handleKeyPress (key : string) (w : world) : world :=
  if String.eqb key "Enter"
  then if ValidateUrl.validateUrl (startUrl (app w))
       then startCrawl (with_app (setIsUrlValid true) w)
       else with_app (setIsUrlValid false) w
  else w.

(** The [disabled] attribute of the button. *)
Definition button_disabled (s : state) : bool :=
  loading s || negb (isUrlValid s) || Nat.eqb (String.length (startUrl s)) 0.

Definition handleClick (w : world) : world :=
  if button_disabled (app w) then w else startCrawl w.

(** The callback of interval [h] starts: it calls the status service. *)
Definition tick (h : nat) (w : world) : world :=
  match find (fun i => Nat.eqb (handle i) h) (intervals w) with
  | Some i => run (CrawlService.checkTaskStatus (polled i)) (AfterStatus h) w
  | None => w
  end.

Definition find_pending (id : nat) (w : world) : option pending :=
  find (fun p => Nat.eqb (p_id p) id) (inflight w).

Definition remove_pending (id : nat) (w : world) : world :=
  {| app := app w; intervals := intervals w;
     inflight := filter (fun p => negb (Nat.eqb (p_id p) id)) (inflight w);
     sent := sent w; next_handle := next_handle w; next_request := next_request w |}.

(** Fetch number [id] settles with [o]. *)
Definition settle (id : nat) (o : fetch_outcome) (w : world) : world :=
  match find_pending id w with
  | Some p => run (p_k p o) (p_cont p) (remove_pending id w)
  | None => w
  end.

Inductive event : Type :=
| UrlChange (v : string)                  (* typing in the text field *)
| KeyPress (key : string)                 (* a key in the text field *)
| Click                                   (* the button *)
| Tick (h : nat)                          (* the timer fires interval h *)
| Settle (id : nat) (o : fetch_outcome).  (* a fetch settles *)

Definition step (w : world) (e : event) : world :=
  match e with
  | UrlChange v => handleUrlChange v w
  | KeyPress key => handleKeyPress key w
  | Click => handleClick w
  | Tick h => tick h w
  | Settle id o => settle id o w
  end.

Definition exec (w : world) (evs : list event) : world := fold_left step evs w.

(** Handles of the active intervals, and the requests one handler made. *)
Definition handles (w : world) : list nat := map handle (intervals w).

Definition same_continuation (a b : continuation) : bool :=
  match a, b with
  | AfterSubmit, AfterSubmit => true
  | AfterStatus x, AfterStatus y => Nat.eqb x y
  | _, _ => false
  end.

Definition requests_of (c : continuation) (w : world) : list request :=
  map snd (filter (fun e => same_continuation (fst e) c) (sent w)).

End App.

(* ================================================================== *)
(** * The outcomes of a request, as the task client sees them         *)
(* ================================================================== *)

Module ClientOutcomes.
Import Js CrawlService.

Local Open Scope string_scope.





(** The one request of [startCrawl], and the one of [checkTaskStatus]. *)
Definition start_request (startUrl : string) : request :=
  {| req_method := POST;
     req_url := BACKEND_BASE_URL ++ "/start-crawl";
     req_headers := [("Content-Type", "application/json")];
     req_body := Some (VObject [("start_url", VString startUrl)]) |}.

Definition status_request (taskId : value) : request :=
  {| req_method := GET;
     req_url := BACKEND_BASE_URL ++ "/task-status/" ++ to_string taskId;
     req_headers := [];
     req_body := None |}.

(** What remains of each service call once its fetch has settled. *)
Definition startCrawl_k (o : fetch_outcome) : async value :=
  match startCrawl "" with
  | Fetch _ k => k o
  | m => m
  end.

Definition checkTaskStatus_k (o : fetch_outcome) : async value :=
  match checkTaskStatus VUndefined with
  | Fetch _ k => k o
  | m => m
  end.

End ClientOutcomes.

(* ================================================================== *)
(** * Worlds and what is said about them                              *)
(* ================================================================== *)

Module Worlds.
Import Js App.

Local Open Scope string_scope.

(** ** Worlds the component can be in *)

(** A computation that has returned or thrown. *)
Definition settled (m : async value) : Prop :=
  match m with
  | Fetch _ _ => False
  | _ => True
  end.

(** A service call that needs the network once only. *)
Definition single_shot (k : fetch_outcome -> async value) : Prop :=
  forall o, settled (k o).

(** What holds of every world the component reaches: the handles of the
    intervals and of the awaiting callbacks were given out already, every
    interval has the delay of the poll loop, and every call in flight needs
    no second request. *)
Record wf (w : world) : Prop := {
  wf_handles : Forall (fun i => handle i < next_handle w) (intervals w);
  wf_delay : Forall (fun i => delay i = POLL_DELAY) (intervals w);
  wf_single : Forall (fun p => single_shot (p_k p)) (inflight w);
  wf_conts : Forall (fun p => forall h, p_cont p = AfterStatus h -> h < next_handle w)
                    (inflight w)
}.

(** The worlds some sequence of events leads to. *)
Definition reachable (w : world) : Prop := exists evs, w = exec initial_world evs.

(** From [w] to [w'] no interval older than [w] appears and the callback of
    interval [h] makes no request. *)
Definition quiet_for (h : nat) (w w' : world) : Prop :=
  next_handle w <= next_handle w' /\
  (forall x, In x (handles w') -> In x (handles w) \/ next_handle w <= x) /\
  requests_of (AfterStatus h) w' = requests_of (AfterStatus h) w.

(** Interval [h] was made and is no longer active. *)
Definition retired (h : nat) (w : world) : Prop :=
  h < next_handle w /\ ~ In h (handles w).

(** No submission is awaited. *)
Definition no_submit_in_flight (w : world) : Prop :=
  Forall (fun p => p_cont p <> AfterSubmit) (inflight w).

(** The events that call [startCrawl]. *)
Definition is_start (e : event) : bool :=
  match e with
  | KeyPress _ | Click => true
  | _ => false
  end.

End Worlds.

(* ================================================================== *)
(** * Scenarios                                                       *)
(* ================================================================== *)

Module Scenarios.
Import Js App.

Local Open Scope string_scope.

(** A 200 response with a JSON body. *)
Definition ok_json (body : value) : fetch_outcome :=
  Resolved {| status := 200; json := inr body |}.

Definition status_body (st : string) : value := VObject [("status", VString st)].

Definition example_result : value :=
  VObject [("https://example.com", VArray [VString "https://example.com/about"])].

Definition completed_body (result : value) : value :=
  VObject [("status", VString "completed"); ("crawled_data", result)].

(** Scenario A: the seed is submitted, the task gets the id t1, two polls
    find it in progress and the third finds it completed. *)
Definition scenario_A : list event :=
  [ UrlChange "https://example.com"; Click;
    Settle 0 (ok_json (VObject [("task_id", VString "t1")]));
    Tick 0; Settle 1 (ok_json (status_body "in_progress"));
    Tick 0; Settle 2 (ok_json (status_body "in_progress"));
    Tick 0; Settle 3 (ok_json (completed_body example_result)) ].

(** Scenario B: the seed is not a URL. *)
Definition scenario_B : list event := [ UrlChange "not a url"; Click ].

(** Scenario C: the submission succeeds; the first poll is about to fail. *)
Definition scenario_C : list event :=
  [ UrlChange "https://example.com"; Click;
    Settle 0 (ok_json (VObject [("task_id", VString "t2")]));
    Tick 0 ].

(** The answer to a submission as the README documents it. *)
Definition documented_start_response : value :=
  VObject [("taskId", VString "12345"); ("status", VString "initiated");
           ("startUrl", VString "https://monzo.com")].

Definition documented_submission : list event :=
  [ UrlChange "https://monzo.com"; Click;
    Settle 0 (ok_json documented_start_response);
    Tick 0 ].

(** Scenario D: task t3 is polling and one of its polls is in flight when
    the user starts a crawl of another seed with the Enter key; the new task
    gets the id t4. *)
Definition scenario_D : list event :=
  [ UrlChange "https://example.com"; Click;
    Settle 0 (ok_json (VObject [("task_id", VString "t3")]));
    Tick 0;
    UrlChange "https://other.com"; KeyPress "Enter";
    Settle 2 (ok_json (VObject [("task_id", VString "t4")])) ].

(** The interval of task t3 fires twice before either poll settles; the
    second poll reports failed, the user starts a crawl of another seed with
    the button, and the new task gets the id t4 while the first poll of t3
    is still in flight. *)
Definition scenario_late_result : list event :=
  [ UrlChange "https://example.com"; Click;
    Settle 0 (ok_json (VObject [("task_id", VString "t3")]));
    Tick 0; Tick 0;
    Settle 2 (ok_json (status_body "failed"));
    UrlChange "https://other.com"; Click;
    Settle 3 (ok_json (VObject [("task_id", VString "t4")])) ].

(** The interval of task t2 fires twice before either poll settles, and the
    first poll fails in the transport. *)
Definition scenario_poll_failed : list event :=
  [ UrlChange "https://example.com"; Click;
    Settle 0 (ok_json (VObject [("task_id", VString "t2")]));
    Tick 0; Tick 0;
    Settle 1 (Failed "Failed to fetch") ].

(** The second poll of t2 (request 2), in flight since before the failure,
    settles: completed. *)
Definition late_completed : event :=
  Settle 2 (ok_json (completed_body example_result)).

(** A whole life cycle, then a fresh start. *)
Definition start_after_completed : list event :=
  (scenario_A ++ [ UrlChange "https://other.com"; Click ])%list.



(** The worlds the scenarios lead to. *)
Definition world_A : world := exec initial_world scenario_A.
Definition world_B : world := exec initial_world scenario_B.
Definition world_C : world := exec initial_world scenario_C.
Definition world_D : world := exec initial_world scenario_D.
Definition world_poll_failed : world := exec initial_world scenario_poll_failed.
Definition world_late_result : world := exec initial_world scenario_late_result.
Definition world_documented : world := exec initial_world documented_submission.
Definition world_restarted : world := exec initial_world start_after_completed.

(** Typing a seed that is not a URL, and submitting a seed. *)
Definition world_typed_invalid : world := exec initial_world [ UrlChange "not a url" ].
Definition world_submitting : world :=
  exec initial_world [ UrlChange "https://example.com"; Click ].

(** The status call in flight in [world_C] and [world_D], and the submit call
    in flight in [world_submitting]. *)
(** The poll of task t3 that was in flight (request 1) settles: completed. *)
Definition stale_result : event := Settle 1 (ok_json (completed_body example_result)).

Definition pending_status : pending :=
  {| p_id := 1; p_k := ClientOutcomes.checkTaskStatus_k; p_cont := AfterStatus 0 |}.
Definition pending_submit : pending :=
  {| p_id := 0; p_k := ClientOutcomes.startCrawl_k; p_cont := AfterSubmit |}.

End Scenarios.

(* ================================================================== *)
(** * App.js and components/: what the component renders              *)
(* ================================================================== *)

Module Render.
Import Js App.

Local Open Scope string_scope.

Definition VALID_URL_MESSAGE : string :=
  "Please enter a valid URL ie https://www.monzo.com".

(** What the components return.  React calls the component functions of the
    elements [App] returns in the same render pass and then renders what
    they put between their tags, so an exception thrown by a component, or by
    React on a child it does not accept, fails the pass like an exception
    thrown by [App] itself. *)
#[warnings="-register-all"] Inductive element : Type :=
| EProgress                                             (* the progress block *)
| ETaskInfo (taskId status : value) (startUrl : string)     (* three lines *)
| EUrlData (key : nat) (url : string) (links : list value)  (* one accordion *)
| ECrawled (items : list element)                (* heading and accordions *)
| EErrorMessage (message : string).

(** The value of [a && b && <X />] as a child: the element, or the falsy
    operand the expression stopped at. *)
Inductive slot : Type :=
| Shown (e : element)
| Skipped (v : value).

(** Whether a value counts as true in [&&] and in [? :].  The text of a
    number is what [String(n)] gives, so zero and minus zero read 0. *)
Definition truthy (v : value) : bool :=
  match v with
  | VUndefined | VNull => false
  | VBool b => b
  | VNumber text => negb (String.eqb text "0" || String.eqb text "NaN")
  | VString s => negb (String.eqb s "")
  | VArray _ | VObject _ => true
  end.

(** What React accepts between the tags of an element: a string, a number,
    a boolean, [null], [undefined], and an array of such children.  On a
    plain object it throws ("Objects are not valid as a React child"). *)
Fixpoint valid_child (v : value) : bool :=
  match v with
  | VObject _ => false
  | VArray items => forallb valid_child items
  | _ => true
  end.

(** [{v}] between tags. *)
Definition as_child (v : value) : exn + value :=
  if valid_child v
  then inr v
  else inl (Error "Objects are not valid as a React child").

Fixpoint indexed {A : Type} (i : nat) (l : list A) : list (string * A) :=
  match l with
  | [] => []
  | x :: rest => (show_nat i, x) :: indexed (S i) rest
  end.

(** [Object.entries(v)]: the properties of an object in their order, the
    indexed items of an array, the indexed characters of a string, nothing
    for a number or a boolean; [null] and [undefined] throw. *)
Definition entries (v : value) : exn + list (string * value) :=
  match v with
  | VUndefined | VNull => inl (TypeError "Cannot convert undefined or null to object")
  | VObject props => inr props
  | VArray items => inr (indexed 0 items)
  | VString s =>
      inr (indexed 0 (map (fun c => VString (String c "")) (list_ascii_of_string s)))
  | VBool _ | VNumber _ => inr []
  end.

(** components/TaskInfo.js: [{taskId}], [{status}] and [{startUrl}] are
    children of the three lines; the last is a string. *)
Definition TaskInfo (taskId status : value) (startUrl : string) : exn + element :=
  match as_child taskId with
  | inl error => inl error
  | inr _ =>
      match as_child status with
      | inl error => inl error
      | inr _ => inr (ETaskInfo taskId status startUrl)
      end
  end.

(** components/ErrorMessage.js: [{message}] is a string. *)
Definition ErrorMessage (message : string) : element := EErrorMessage message.

(** The links of one page can be listed: they are an array, for
    [links.map(...)], of values React accepts as the child [{link}]. *)
Definition listable (links : value) : bool :=
  match links with
  | VArray items => forallb valid_child items
  | _ => false
  end.

(** components/UrlData.js: [{url}] is a string (a key of the entries);
    [links.map(...)] needs an array, each [{link}] is a child, and
    [href={link}] is an attribute, which takes any value. *)
Definition UrlData (key : nat) (url : string) (links : value) : exn + element :=
  match links with
  | VArray items =>
      if forallb valid_child items
      then inr (EUrlData key url items)
      else inl (Error "Objects are not valid as a React child")
  | VUndefined =>
      inl (TypeError "Cannot read properties of undefined (reading 'map')")
  | VNull => inl (TypeError "Cannot read properties of null (reading 'map')")
  | _ => inl (TypeError "links.map is not a function")
  end.

(** The accordions of [entries.map(([url, links], index) =>
    <UrlData key={index} ... />)], rendered in their order. *)
Fixpoint url_data_list (index : nat) (es : list (string * value))
  : exn + list element :=
  match es with
  | [] => inr []
  | (url, links) :: rest =>
      match UrlData index url links with
      | inl error => inl error
      | inr item =>
          match url_data_list (S index) rest with
          | inl error => inl error
          | inr items => inr (item :: items)
          end
      end
  end.

(** [taskStatus === 'completed' && ... Object.entries(crawledData) ...],
    evaluated by [App] itself before any component is rendered. *)
Definition crawled_entries (s : state) : exn + option (list (string * value)) :=
  if strict_eq_string (taskStatus s) "completed"
  then match entries (crawledData s) with
       | inl error => inl error
       | inr es => inr (Some es)
       end
  else inr None.

(** [!loading && taskId && <TaskInfo ... />]; a falsy task id is never an
    object, so React accepts it as a child. *)
Definition task_info_slot (s : state) : exn + slot :=
  if negb (loading s)
  then if truthy (taskId s)
       then match TaskInfo (taskId s) (taskStatus s) (startUrl s) with
            | inl error => inl error
            | inr e => inr (Shown e)
            end
       else inr (Skipped (taskId s))
  else inr (Skipped (VBool false)).

Definition crawled_slot (es : option (list (string * value))) : exn + slot :=
  match es with
  | None => inr (Skipped (VBool false))
  | Some es =>
      match url_data_list 0 es with
      | inl error => inl error
      | inr items => inr (Shown (ECrawled items))
      end
  end.

(** What [App] returns, once React has rendered it: the text field, the
    button, and the five conditional children in their order.  The title of
    the tooltip is handed to the tooltip of the library, which renders it
    only while the tooltip is open; this is the pass with the tooltip
    closed. *)
Record view : Type := {
  field_value : string;
  tooltip_title : value;
  button_is_disabled : bool;
  button_busy : bool;              (* the small progress ring, not the label *)
  progress : slot;
  task_info : slot;
  crawled : slot;
  url_error : slot;
  error : slot
}.

(** [!isUrlValid && startUrl.length > 0] *)
Definition url_marked_invalid (s : state) : bool :=
  negb (isUrlValid s) && negb (Nat.eqb (String.length (startUrl s)) 0).

Definition render (s : state) : exn + view :=
  match crawled_entries s with
  | inl error => inl error
  | inr es =>
      match task_info_slot s with
      | inl error => inl error
      | inr task_info_child =>
          match crawled_slot es with
          | inl error => inl error
          | inr crawled_child =>
              inr {| field_value := startUrl s;
                     tooltip_title :=
                       if url_marked_invalid s
                       then VObject [("VALID_URL_MESSAGE", VString VALID_URL_MESSAGE)]
                       else VString "";
                     button_is_disabled := button_disabled s;
                     button_busy := loading s;
                     progress :=
                       if loading s then Shown EProgress else Skipped (VBool false);
                     task_info := task_info_child;
                     crawled := crawled_child;
                     url_error :=
                       if url_marked_invalid s
                       then Shown (ErrorMessage VALID_URL_MESSAGE)
                       else Skipped (VBool false);
                     error :=
                       if negb (String.eqb (errorMessage s) "")
                       then Shown (ErrorMessage (errorMessage s))
                       else Skipped (VString "") |}
          end
      end
  end.

(** The crawled data the render can show: it has entries and the links of
    each of them can be listed. *)
Definition showable (v : value) : bool :=
  match entries v with
  | inl _ => false
  | inr es => forallb (fun e => listable (snd e)) es
  end.

(** The task info is due and cannot be shown: the component is not loading,
    the task id counts as true, and the task id or the task status is not a
    child React accepts. *)
Definition task_info_fails (s : state) : bool :=
  negb (loading s) && truthy (taskId s)
  && negb (valid_child (taskId s) && valid_child (taskStatus s)).

End Render.

(* ================================================================== *)
(** * Words for the further properties                                *)
(* ================================================================== *)

Module Terms.
Import Js App ClientOutcomes.

Local Open Scope string_scope.

(** The lower case of a string. *)
Definition lower_string (s : string) : string :=
  string_of_list_ascii (map Regex.to_lower (list_ascii_of_string s)).

(** The characters a URL of the validator is written with. *)
Definition url_char (c : ascii) : bool :=
  SeedGrammar.is_alnum c
  || SeedGrammar.is_one_of
       ["-"; "."; "_"; "~"; "%"; "+"; ":"; "/"; "?"; "#"; ";"; "&"; "="]%char c.

(** The characters some class of a pattern matches. *)
Fixpoint matched_somewhere (icase : bool) (r : Regex.regex) (c : ascii) : bool :=
  match r with
  | Regex.RNull | Regex.REps => false
  | Regex.RSet cs => Regex.cset_mem icase cs c
  | Regex.RSeq a b | Regex.RAlt a b =>
      matched_somewhere icase a c || matched_somewhere icase b c
  | Regex.RStar a => matched_somewhere icase a c
  end.

(** What remains of the pattern after a scheme: host, port, path, query and
    fragment. *)
Definition after_scheme : Regex.regex :=
  Regex.RSeq (Regex.RAlt ValidateUrl.domain_name ValidateUrl.ip_v4)
    (Regex.RSeq ValidateUrl.port
       (Regex.RSeq ValidateUrl.path
          (Regex.RSeq ValidateUrl.query ValidateUrl.fragment))).

(** The requests in flight have numbers given out already. *)
Definition fresh_ids (w : world) : Prop :=
  Forall (fun p => p_id p < next_request w) (inflight w).

(** The world once a request was sent and its fetch has settled: the
    request is on record and nothing is in flight for it. *)
Definition after_request (c : continuation) (req : request) (w : world) : world :=
  {| app := app w; intervals := intervals w; inflight := inflight w;
     sent := (sent w ++ [(c, req)])%list;
     next_handle := next_handle w; next_request := S (next_request w) |}.

(** The state [startCrawl] leaves before it awaits the submission. *)
Definition submitting (s : state) : state :=
  setErrorMessage "" (setIsUrlValid true (setLoading true s)).

(** A handler that leaves the network alone. *)
Definition same_network (w w' : world) : Prop :=
  inflight w' = inflight w /\ next_request w' = next_request w /\ sent w' = sent w.


(** From [w] to [w'] the task id is kept and no interval is made. *)
Definition same_task (w w' : world) : Prop :=
  taskId (app w') = taskId (app w)
  /\ next_handle w' = next_handle w
  /\ (forall i, In i (intervals w') -> In i (intervals w)).

(** A seed that is not a URL was refused, and a valid one has been typed. *)
Definition world_retyped : world :=
  exec initial_world
       [ UrlChange "not a url"; Click; UrlChange "https://example.com" ].

(** The crawled data of a list of pages, each with its links, and the
    accordions that show them. *)
Definition crawl_result (pages : list (string * list value)) : value :=
  VObject (map (fun page => (fst page, VArray (snd page))) pages).

Fixpoint accordions (index : nat) (pages : list (string * list value))
  : list Render.element :=
  match pages with
  | [] => []
  | (url, links) :: rest => Render.EUrlData index url links :: accordions (S index) rest
  end.




(** What the component may send: the submission of a seed the validator
    accepts, made by [startCrawl], or the status request of an interval
    callback. *)
Definition allowed_request (entry : continuation * request) : Prop :=
  match fst entry with
  | AfterSubmit =>
      exists url, snd entry = start_request url
                  /\ ValidateUrl.validateUrl url = true
  | AfterStatus _ => exists id, snd entry = status_request id
  end.

(** The events whose handlers call a service. *)
Definition may_send (e : event) : bool :=
  match e with
  | KeyPress _ | Click | Tick _ => true
  | UrlChange _ | Settle _ _ => false
  end.

(** The newest interval, while it is active, polls the task id on display. *)
Definition newest_polls_shown_id (w : world) : Prop :=
  forall i, In i (intervals w) -> S (handle i) = next_handle w ->
            polled i = taskId (app w).

(** A status other than the two that end the loop. *)
Definition non_terminal (st : value) : Prop :=
  st <> VString "completed" /\ st <> VString "failed".

(** The answer to a status request as the README documents it. *)
Definition documented_status_response : value :=
  VObject [("id", VString "xyz"); ("status", VString "completed");
           ("startUrl", VString "https://example.com");
           ("visitedUrls", VArray [VString "https://example.com/about";
                                   VString "https://example.com/contact"])].

End Terms.

(* ================================================================== *)
(** * Facts about the matcher                                         *)
(* ================================================================== *)

Module RegexFacts.
Import Regex.

(** ** The matcher decides the language *)

Section MatcherCorrect.
Variable icase : bool.

Lemma lang_mk_seq (a b : regex) (s : list ascii) :
  lang icase (mk_seq a b) s <-> lang icase (RSeq a b) s.
Proof.
  assert (Hnull_r : forall x, lang icase (RSeq x RNull) s <-> False).
  { intros x; simpl; split; [intros (s1 & s2 & _ & _ & []) | tauto]. }
  assert (Heps_l : forall x, lang icase (RSeq REps x) s <-> lang icase x s).
  { intros x; simpl; split.
    - intros (s1 & s2 & -> & -> & H); exact H.
    - intros H; exists [], s; auto. }
  destruct a; simpl mk_seq.
  - simpl; split; [tauto | intros (s1 & s2 & _ & [] & _)].
  - destruct b; rewrite ?Heps_l; simpl; tauto.
  - destruct b; rewrite ?Hnull_r; simpl; tauto.
  - destruct b; rewrite ?Hnull_r; simpl; tauto.
  - destruct b; rewrite ?Hnull_r; simpl; tauto.
  - destruct b; rewrite ?Hnull_r; simpl; tauto.
Qed.

Lemma lang_mk_alt (a b : regex) (s : list ascii) :
  lang icase (mk_alt a b) s <-> lang icase a s \/ lang icase b s.
Proof.
  assert (Hdec : forall x y,
             lang icase (if regex_eq_dec x y then x else RAlt x y) s
             <-> lang icase x s \/ lang icase y s).
  { intros x y; destruct (regex_eq_dec x y) as [<- | _]; simpl; tauto. }
  destruct a; simpl mk_alt.
  - simpl; tauto.
  - destruct b; rewrite ?Hdec; simpl; tauto.
  - destruct b; rewrite ?Hdec; simpl; tauto.
  - destruct b; rewrite ?Hdec; simpl; tauto.
  - destruct b; rewrite ?Hdec; simpl; tauto.
  - destruct b; rewrite ?Hdec; simpl; tauto.
Qed.

Lemma nullable_lang (r : regex) : nullable r = true <-> lang icase r [].
Proof.
  induction r as [ | | cs | a IHa b IHb | a IHa b IHb | a IHa ]; simpl.
  - split; [discriminate | tauto].
  - tauto.
  - split; [discriminate | intros (c & H & _); discriminate].
  - rewrite andb_true_iff, IHa, IHb; split.
    + intros [Ha Hb]; exists [], []; auto.
    + intros (s1 & s2 & H & Ha & Hb).
      symmetry in H; apply app_eq_nil in H as [-> ->]; auto.
  - rewrite orb_true_iff, IHa, IHb; tauto.
  - split; [intros _; exists []; auto | auto].
Qed.

(** A non-empty word of [a*] starts with a non-empty word of [a]. *)
Lemma star_cons (a : regex) (c : ascii) (s : list ascii) :
  lang icase (RStar a) (c :: s) <->
  exists s1 s2, s = s1 ++ s2 /\ lang icase a (c :: s1) /\ lang icase (RStar a) s2.
Proof.
  split.
  - intros (ss & Hs & Hall).
    induction Hall as [ | p ss Hp Hall IH ]; simpl in Hs; [discriminate | ].
    destruct p as [ | c' p ].
    + apply IH, Hs.
    + simpl in Hs; injection Hs as <- ->.
      exists p, (List.concat ss); repeat split; auto.
      exists ss; auto.
  - intros (s1 & s2 & -> & H1 & ss & -> & Hall).
    exists ((c :: s1) :: ss); split; auto.
Qed.

Lemma deriv_lang (r : regex) (c : ascii) (s : list ascii) :
  lang icase (deriv icase c r) s <-> lang icase r (c :: s).
Proof.
  revert s;
    induction r as [ | | cs | a IHa b IHb | a IHa b IHb | a IHa ]; intros s; simpl deriv.
  - simpl; tauto.
  - simpl; split; [tauto | discriminate].
  - simpl; destruct (cset_mem icase cs c) eqn:E; simpl; split.
    + intros ->; exists c; auto.
    + intros (c' & H & _); injection H as _ ->; reflexivity.
    + tauto.
    + intros (c' & H & Hc); injection H as <- _; congruence.
  - assert (Hseq : lang icase (mk_seq (deriv icase c a) b) s <->
                   exists s1 s2, s = s1 ++ s2 /\ lang icase a (c :: s1) /\ lang icase b s2).
    { rewrite lang_mk_seq; simpl; split;
        intros (s1 & s2 & E & H1 & H2); exists s1, s2;
        (split; [exact E | split; [apply IHa, H1 | exact H2]]). }
    destruct (nullable a) eqn:Na.
    + rewrite lang_mk_alt, Hseq, IHb; simpl; split.
      * intros [(s1 & s2 & -> & H1 & H2) | Hb].
        -- exists (c :: s1), s2; auto.
        -- exists [], (c :: s); repeat split; auto. apply nullable_lang, Na.
      * intros (s1 & s2 & E & H1 & H2). destruct s1 as [ | c' s1 ].
        -- simpl in E; subst s2; auto.
        -- simpl in E; injection E as <- ->; left; exists s1, s2; auto.
    + rewrite Hseq; simpl; split.
      * intros (s1 & s2 & -> & H1 & H2); exists (c :: s1), s2; auto.
      * intros (s1 & s2 & E & H1 & H2). destruct s1 as [ | c' s1 ].
        -- apply nullable_lang in H1; congruence.
        -- simpl in E; injection E as <- ->; exists s1, s2; auto.
  - rewrite lang_mk_alt, IHa, IHb; simpl; tauto.
  - rewrite star_cons, lang_mk_seq; simpl; split;
      intros (s1 & s2 & E & H1 & H2); exists s1, s2;
      (split; [exact E | split; [apply IHa, H1 | exact H2]]).
Qed.

Lemma matches_lang (r : regex) (s : list ascii) :
  matches icase r s = true <-> lang icase r s.
Proof.
  revert r; induction s as [ | c s IH ]; intros r; simpl.
  - apply nullable_lang.
  - rewrite IH; apply deriv_lang.
Qed.
End MatcherCorrect.

(** ** The languages of the derived forms *)

Section LangFacts.
Variable icase : bool.

Lemma lang_opt (r : regex) (s : list ascii) :
  lang icase (opt r) s <-> s = [] \/ lang icase r s.
Proof. simpl; tauto. Qed.

Lemma lang_seq (a b : regex) (s : list ascii) :
  lang icase (RSeq a b) s <->
  exists s1 s2, s = s1 ++ s2 /\ lang icase a s1 /\ lang icase b s2.
Proof. reflexivity. Qed.

Lemma lang_star (a : regex) (s : list ascii) :
  lang icase (RStar a) s <-> exists ss, s = List.concat ss /\ Forall (lang icase a) ss.
Proof. reflexivity. Qed.

Lemma lang_set (cs : cset) (s : list ascii) :
  lang icase (RSet cs) s <-> exists c, s = [c] /\ cset_mem icase cs c = true.
Proof. reflexivity. Qed.

(** A character followed by [r]. *)
Lemma lang_set_seq (cs : cset) (r : regex) (s : list ascii) :
  lang icase (RSeq (RSet cs) r) s <->
  exists c s', s = c :: s' /\ cset_mem icase cs c = true /\ lang icase r s'.
Proof.
  simpl; split.
  - intros (s1 & s2 & -> & (c & -> & Hc) & Hr); exists c, s2; auto.
  - intros (c & s' & -> & Hc & Hr); exists [c], s'; repeat split; auto.
    exists c; auto.
Qed.

Lemma lang_set_star (cs : cset) (s : list ascii) :
  lang icase (RStar (RSet cs)) s <-> in_set icase cs s.
Proof.
  unfold in_set; split.
  - intros (ss & -> & Hall). induction Hall as [ | p ss (c & -> & Hc) _ IH ]; simpl.
    + constructor.
    + constructor; assumption.
  - intros H. exists (map (fun c => [c]) s); split.
    + induction s as [ | c s IH ]; simpl; [reflexivity | ].
      inversion H; subst; f_equal; auto.
    + induction H as [ | c s Hc _ IH ]; simpl; constructor; auto.
      exists c; auto.
Qed.

Lemma lang_set_plus (cs : cset) (s : list ascii) :
  lang icase (plus (RSet cs)) s <-> s <> [] /\ in_set icase cs s.
Proof.
  unfold plus. rewrite lang_set_seq. setoid_rewrite lang_set_star.
  unfold in_set; split.
  - intros (c & s' & -> & Hc & Hs); split; [discriminate | constructor; auto].
  - intros [Hne H]. destruct H as [ | c s' Hc Hs ]; [congruence | ].
    exists c, s'; auto.
Qed.

Lemma lang_set_rep (cs : cset) (n : nat) (s : list ascii) :
  lang icase (rep n (RSet cs)) s <-> List.length s = n /\ in_set icase cs s.
Proof.
  unfold in_set; revert s; induction n as [ | n IH ]; intros s; simpl rep.
  - simpl; split.
    + intros ->; split; [reflexivity | constructor].
    + intros [H _]; destruct s; [reflexivity | discriminate].
  - rewrite lang_set_seq; split.
    + intros (c & s' & -> & Hc & Hs); apply IH in Hs as [Hl Hs].
      split; [simpl; congruence | constructor; auto].
    + intros [Hl H]. destruct H as [ | c s' Hc Hs ]; [discriminate | ].
      exists c, s'; repeat split; auto. apply IH; split; auto.
Qed.

Lemma lang_set_upto (cs : cset) (n : nat) (s : list ascii) :
  lang icase (upto n (RSet cs)) s <-> List.length s <= n /\ in_set icase cs s.
Proof.
  unfold in_set; revert s; induction n as [ | n IH ]; intros s; simpl upto.
  - simpl; split.
    + intros ->; split; [simpl; lia | constructor].
    + intros [H _]; destruct s; [reflexivity | simpl in H; lia].
  - rewrite lang_opt, lang_set_seq; split.
    + intros [-> | (c & s' & -> & Hc & Hs)].
      * split; [simpl; lia | constructor].
      * apply IH in Hs as [Hl Hs]. split; [simpl; lia | constructor; auto].
    + intros [Hl H]. destruct H as [ | c s' Hc Hs ]; [left; reflexivity | right].
      exists c, s'; repeat split; auto. apply IH; split; auto. simpl in Hl; lia.
Qed.

Lemma lang_set_rep_range (cs : cset) (lo hi : nat) (s : list ascii) :
  lo <= hi ->
  lang icase (rep_range lo hi (RSet cs)) s <-> lo <= List.length s <= hi /\ in_set icase cs s.
Proof.
  intros Hle; unfold rep_range, in_set. rewrite lang_seq.
  setoid_rewrite lang_set_rep. setoid_rewrite lang_set_upto. unfold in_set; split.
  - intros (s1 & s2 & -> & [H1 A1] & [H2 A2]).
    rewrite length_app; split; [lia | apply Forall_app; auto].
  - intros [Hl H]. exists (firstn lo s), (skipn lo s).
    rewrite firstn_skipn, length_firstn, length_skipn.
    rewrite <- (firstn_skipn lo s) in H. apply Forall_app in H as [A1 A2].
    repeat split; auto; lia.
Qed.

Lemma lang_set_rep_min (cs : cset) (lo : nat) (s : list ascii) :
  lang icase (rep_min lo (RSet cs)) s <-> lo <= List.length s /\ in_set icase cs s.
Proof.
  unfold rep_min, in_set. rewrite lang_seq.
  setoid_rewrite lang_set_rep. setoid_rewrite lang_set_star. unfold in_set; split.
  - intros (s1 & s2 & -> & [H1 A1] & A2).
    rewrite length_app; split; [lia | apply Forall_app; auto].
  - intros [Hl H]. exists (firstn lo s), (skipn lo s).
    rewrite firstn_skipn, length_firstn.
    rewrite <- (firstn_skipn lo s) in H. apply Forall_app in H as [A1 A2].
    repeat split; auto; lia.
Qed.

(** Languages that agree give the same starred language. *)
Lemma lang_star_ext (a : regex) (P : list ascii -> Prop) (s : list ascii) :
  (forall x, lang icase a x <-> P x) ->
  lang icase (RStar a) s <-> exists ss, s = List.concat ss /\ Forall P ss.
Proof.
  intros HP; rewrite lang_star; split; intros (ss & E & H); exists ss; split; auto;
    eapply Forall_impl; try eassumption; intros x; apply HP.
Qed.
End LangFacts.
End RegexFacts.

(* ================================================================== *)
(** * The pattern of validateUrl.js against the seed grammar          *)
(* ================================================================== *)

Module ValidateUrlFacts.
Import Regex RegexFacts ValidateUrl SeedGrammar.

Local Open Scope char_scope.

(** Every property of one character is checked on the 256 characters. *)
Lemma forall_ascii (f : ascii -> bool) :
  forallb f all_ascii = true -> forall c, f c = true.
Proof.
  intros H c. rewrite forallb_forall in H. apply H.
  unfold all_ascii. rewrite <- (ascii_nat_embedding c).
  apply in_map, in_seq. pose proof (nat_ascii_bounded c). lia.
Qed.

Lemma mem_alnum c : cset_mem true alnum c = is_alnum c.
Proof.
  apply eqb_prop. revert c. apply forall_ascii. vm_compute. reflexivity.
Qed.

Lemma mem_alnum_dash c : cset_mem true alnum_dash c = label_char c.
Proof.
  apply eqb_prop. revert c. apply forall_ascii. vm_compute. reflexivity.
Qed.

Lemma mem_digit c : cset_mem true digit c = is_digit c.
Proof.
  apply eqb_prop. revert c. apply forall_ascii. vm_compute. reflexivity.
Qed.

Lemma mem_alpha c : cset_mem true alpha c = is_letter c.
Proof.
  apply eqb_prop. revert c. apply forall_ascii. vm_compute. reflexivity.
Qed.

Lemma mem_path_chars c : cset_mem true path_chars c = path_char c.
Proof.
  apply eqb_prop. revert c. apply forall_ascii. vm_compute. reflexivity.
Qed.

Lemma mem_query_chars c : cset_mem true query_chars c = query_char c.
Proof.
  apply eqb_prop. revert c. apply forall_ascii. vm_compute. reflexivity.
Qed.

Lemma mem_fragment_chars c : cset_mem true fragment_chars c = fragment_char c.
Proof.
  apply eqb_prop. revert c. apply forall_ascii. vm_compute. reflexivity.
Qed.

Lemma mem_char_dot c : cset_mem true [CChar "."] c = Ascii.eqb c ".".
Proof.
  apply eqb_prop. revert c. apply forall_ascii. vm_compute. reflexivity.
Qed.

Lemma mem_char_colon c : cset_mem true [CChar ":"] c = Ascii.eqb c ":".
Proof.
  apply eqb_prop. revert c. apply forall_ascii. vm_compute. reflexivity.
Qed.

Lemma mem_char_slash c : cset_mem true [CChar "/"] c = Ascii.eqb c "/".
Proof.
  apply eqb_prop. revert c. apply forall_ascii. vm_compute. reflexivity.
Qed.

Lemma mem_char_question c : cset_mem true [CChar "?"] c = Ascii.eqb c "?".
Proof.
  apply eqb_prop. revert c. apply forall_ascii. vm_compute. reflexivity.
Qed.

Lemma mem_char_hash c : cset_mem true [CChar "#"] c = Ascii.eqb c "#".
Proof.
  apply eqb_prop. revert c. apply forall_ascii. vm_compute. reflexivity.
Qed.

Lemma in_set_all (cs : cset) (p : ascii -> bool) (s : list ascii) :
  (forall c, cset_mem true cs c = p c) -> in_set true cs s <-> all p s.
Proof.
  intros H; unfold in_set, all; split; intros A;
    (eapply Forall_impl; [ | exact A ]); intros c Hc; cbv beta in *;
    specialize (H c); congruence.
Qed.

(** A single punctuation character, then [r]. *)
Lemma lang_punct_seq (x : ascii) (r : regex) (s : list ascii) :
  (forall c, cset_mem true [CChar x] c = Ascii.eqb c x) ->
  lang true (RSeq (chr x) r) s <-> exists s', s = x :: s' /\ lang true r s'.
Proof.
  intros Hx; unfold chr; rewrite lang_set_seq; split.
  - intros (c & s' & -> & Hc & Hr). rewrite Hx in Hc.
    apply Ascii.eqb_eq in Hc as ->. exists s'; auto.
  - intros (s' & -> & Hr). exists x, s'; repeat split; auto.
    rewrite Hx; apply Ascii.eqb_refl.
Qed.

(** [r], then a single punctuation character. *)
Lemma lang_seq_punct (x : ascii) (r : regex) (s : list ascii) :
  (forall c, cset_mem true [CChar x] c = Ascii.eqb c x) ->
  lang true (RSeq r (chr x)) s <-> exists s', s = s' ++ [x] /\ lang true r s'.
Proof.
  intros Hx; unfold chr; rewrite lang_seq; split.
  - intros (s1 & s2 & -> & Hr & (c & -> & Hc)). rewrite Hx in Hc.
    apply Ascii.eqb_eq in Hc as ->. exists s1; auto.
  - intros (s' & -> & Hr). exists s', [x]; repeat split; auto.
    exists x; split; auto. rewrite Hx; apply Ascii.eqb_refl.
Qed.

(** ** Host labels *)

Lemma last_app_single (A : Type) (l : list A) (x d : A) : last (l ++ [x]) d = x.
Proof. apply last_last. Qed.

Lemma alnum_is_label_char c : is_alnum c = true -> label_char c = true.
Proof. unfold label_char; intros ->; reflexivity. Qed.

Lemma lang_label_piece (s : list ascii) :
  lang true (RSeq (RStar (RSet alnum_dash)) (RSet alnum)) s <->
  exists body c, s = body ++ [c] /\ all label_char body /\ is_alnum c = true.
Proof.
  rewrite lang_seq. setoid_rewrite lang_set_star. setoid_rewrite lang_set.
  setoid_rewrite (fun s => in_set_all _ _ s mem_alnum_dash). split.
  - intros (s1 & s2 & -> & H1 & (c & -> & Hc)). rewrite mem_alnum in Hc.
    exists s1, c; auto.
  - intros (body & c & -> & H1 & Hc). exists body, [c]; repeat split; auto.
    exists c; rewrite mem_alnum; auto.
Qed.

Lemma last_app_default (A : Type) (l1 l2 : list A) (d : A) :
  last (l1 ++ l2) d = last l2 (last l1 d).
Proof.
  revert d; induction l1 as [ | x l1 IH ]; intros d; [reflexivity | ].
  destruct l1 as [ | y l1 ].
  - simpl. destruct l2; [reflexivity | ]. clear IH.
    revert a; induction l2 as [ | z l2 IH2 ]; intros a; [reflexivity | ].
    simpl in *. apply IH2.
  - change (last (y :: l1 ++ l2) d = last l2 (last (y :: l1) d)).
    rewrite <- IH. simpl. destruct (l1 ++ l2); reflexivity.
Qed.

Lemma label_pieces (ss : list (list ascii)) :
  Forall (fun p => exists body c,
              p = body ++ [c] /\ all label_char body /\ is_alnum c = true) ss ->
  forall d, is_alnum d = true ->
            all label_char (List.concat ss) /\ is_alnum (last (List.concat ss) d) = true.
Proof.
  induction 1 as [ | p ss (body & x & -> & Hb & Hx) _ IH ]; intros d Hd; simpl.
  - split; [constructor | exact Hd].
  - destruct (IH x Hx) as [IH1 IH2]. split.
    + unfold all in *. repeat (apply Forall_app; split); auto.
      constructor; [apply alnum_is_label_char, Hx | constructor].
    + rewrite last_app_default, last_app_single. exact IH2.
Qed.

Lemma lang_label (l : list ascii) : lang true label l <-> host_label l.
Proof.
  unfold label. rewrite lang_set_seq. split.
  - intros (c & rest & -> & Hc & Hrest). rewrite mem_alnum in Hc.
    rewrite (lang_star_ext true _ _ _ lang_label_piece) in Hrest.
    destruct Hrest as (ss & -> & Hall). simpl. split; [exact Hc | ].
    apply label_pieces; assumption.
  - destruct l as [ | c rest ]; unfold host_label; [tauto | ].
    intros (Hc & Hrest & Hlast). exists c, rest.
    split; [reflexivity | split; [rewrite mem_alnum; exact Hc | ] ].
    rewrite (lang_star_ext true _ _ _ lang_label_piece).
    destruct rest as [ | y rest' _ ] using rev_ind.
    + exists []; split; auto.
    + rewrite last_app_single in Hlast.
      apply Forall_app in Hrest as [Hb _].
      exists [rest' ++ [y]]; split; [simpl; rewrite app_nil_r; reflexivity | ].
      constructor; [ | constructor]. exists rest', y; auto.
Qed.

(** ** Host names *)

Lemma lang_plus (r : regex) (s : list ascii) :
  lang true (plus r) s <->
  exists ss, s = List.concat ss /\ ss <> [] /\ Forall (lang true r) ss.
Proof.
  unfold plus; rewrite lang_seq; split.
  - intros (s1 & s2 & -> & H1 & (ss & -> & Hall)).
    exists (s1 :: ss); repeat split; auto. discriminate.
  - intros (ss & -> & Hne & Hall). destruct Hall as [ | p ss Hp Hall ]; [congruence | ].
    exists p, (List.concat ss); repeat split; auto. exists ss; auto.
Qed.

Lemma lang_label_dot (p : list ascii) :
  lang true (RSeq label (chr ".")) p <-> exists l, p = l ++ ["."] /\ host_label l.
Proof.
  rewrite (lang_seq_punct _ _ _ mem_char_dot). split;
    intros (l & -> & H); exists l; (split; [reflexivity | apply lang_label, H]).
Qed.

Lemma lang_domain_name (h : list ascii) : lang true domain_name h <-> dotted_name h.
Proof.
  unfold domain_name, dotted_name. rewrite lang_seq.
  setoid_rewrite lang_plus. setoid_rewrite lang_set_rep_min.
  setoid_rewrite (fun s => in_set_all _ _ s mem_alpha). split.
  - intros (s1 & s2 & -> & (ss & -> & Hne & Hall) & Hl & Ht).
    exists ss, s2; repeat split; auto.
    eapply Forall_impl; [ | exact Hall ]. intros p; apply lang_label_dot.
  - intros (ss & tld & -> & Hne & Hall & Hl & Ht).
    exists (List.concat ss), tld; repeat split; auto.
    exists ss; repeat split; auto.
    eapply Forall_impl; [ | exact Hall ]. intros p; apply lang_label_dot.
Qed.

Lemma lang_quad_part (s : list ascii) :
  lang true (rep_range 1 3 (RSet digit)) s <-> quad_part s.
Proof.
  rewrite lang_set_rep_range by lia. unfold quad_part.
  rewrite (in_set_all _ _ s mem_digit). tauto.
Qed.

Lemma lang_quad_dot (p : list ascii) :
  lang true (RSeq (rep_range 1 3 (RSet digit)) (chr ".")) p <->
  exists a, p = a ++ ["."] /\ quad_part a.
Proof.
  rewrite (lang_seq_punct _ _ _ mem_char_dot). split;
    intros (l & -> & H); exists l; (split; [reflexivity | apply lang_quad_part, H]).
Qed.

Lemma lang_ip_v4 (h : list ascii) : lang true ip_v4 h <-> dotted_quad h.
Proof.
  unfold ip_v4, dotted_quad. simpl rep. rewrite lang_seq. split.
  - intros (s & d & -> & Hs & Hd).
    apply lang_seq in Hs as (p1 & s' & -> & H1 & Hs).
    apply lang_seq in Hs as (p2 & s'' & -> & H2 & Hs).
    apply lang_seq in Hs as (p3 & e & -> & H3 & He).
    simpl in He; subst e.
    apply lang_quad_dot in H1 as (a & -> & Ha).
    apply lang_quad_dot in H2 as (b & -> & Hb).
    apply lang_quad_dot in H3 as (c & -> & Hc).
    apply lang_quad_part in Hd.
    exists a, b, c, d. split; [ | auto].
    rewrite app_nil_r, <- !app_assoc. reflexivity.
  - intros (a & b & c & d & -> & Ha & Hb & Hc & Hd).
    exists ((a ++ ["."]) ++ (b ++ ["."]) ++ (c ++ ["."]) ++ []), d.
    split; [rewrite app_nil_r, <- !app_assoc; reflexivity | ].
    split; [ | apply lang_quad_part, Hd].
    apply lang_seq; exists (a ++ ["."]), ((b ++ ["."]) ++ (c ++ ["."]) ++ []).
    split; [reflexivity | split; [apply lang_quad_dot; eauto | ] ].
    apply lang_seq; exists (b ++ ["."]), ((c ++ ["."]) ++ []).
    split; [reflexivity | split; [apply lang_quad_dot; eauto | ] ].
    apply lang_seq; exists (c ++ ["."]), [].
    split; [reflexivity | split; [apply lang_quad_dot; eauto | reflexivity ] ].
Qed.

(** ** Port, path, query and fragment *)

Lemma lang_port (s : list ascii) : lang true ValidateUrl.port s <-> SeedGrammar.port s.
Proof.
  unfold ValidateUrl.port, SeedGrammar.port. rewrite lang_opt.
  rewrite (lang_punct_seq _ _ _ mem_char_colon).
  setoid_rewrite lang_set_plus.
  setoid_rewrite (fun s => in_set_all _ _ s mem_digit).
  split; (intros [-> | (ds & -> & Hne & Hd)]; [left; reflexivity | right; eauto]).
Qed.

Lemma lang_path_segment (seg : list ascii) :
  lang true (RSeq (chr "/") (RStar (RSet path_chars))) seg <->
  exists cs, seg = "/" :: cs /\ all path_char cs.
Proof.
  rewrite (lang_punct_seq _ _ _ mem_char_slash).
  setoid_rewrite lang_set_star.
  setoid_rewrite (fun s => in_set_all _ _ s mem_path_chars). tauto.
Qed.

Lemma lang_path (s : list ascii) : lang true ValidateUrl.path s <-> SeedGrammar.path s.
Proof.
  unfold ValidateUrl.path, SeedGrammar.path.
  apply lang_star_ext, lang_path_segment.
Qed.

Lemma lang_query (s : list ascii) : lang true ValidateUrl.query s <-> SeedGrammar.query s.
Proof.
  unfold ValidateUrl.query, SeedGrammar.query. rewrite lang_opt.
  rewrite (lang_punct_seq _ _ _ mem_char_question).
  setoid_rewrite lang_set_star.
  setoid_rewrite (fun s => in_set_all _ _ s mem_query_chars). tauto.
Qed.

Lemma lang_fragment (s : list ascii) :
  lang true ValidateUrl.fragment s <-> SeedGrammar.fragment s.
Proof.
  unfold ValidateUrl.fragment, SeedGrammar.fragment. rewrite lang_opt.
  rewrite (lang_punct_seq _ _ _ mem_char_hash).
  setoid_rewrite lang_set_star.
  setoid_rewrite (fun s => in_set_all _ _ s mem_fragment_chars). tauto.
Qed.

(** ** The scheme *)

Lemma folds_to_checked (x : ascii) :
  forallb (fun c => Bool.eqb (cset_mem true [CChar x] c) (Ascii.eqb (to_lower c) x))
          all_ascii = true ->
  folds_to x.
Proof.
  intros H c. apply eqb_prop. revert c. apply forall_ascii. exact H.
Qed.

Lemma lang_lit_folded (str : string) (s : list ascii) :
  Forall folds_to (list_ascii_of_string str) ->
  lang true (lit str) s <-> map to_lower s = list_ascii_of_string str.
Proof.
  revert s; induction str as [ | x str IH ]; intros s Hf; simpl lit; simpl list_ascii_of_string.
  - simpl; split; [intros ->; reflexivity | apply map_eq_nil].
  - simpl in Hf. inversion Hf as [ | ? ? Hx Hf' ]; subst.
    unfold chr; rewrite lang_set_seq. split.
    + intros (c & s' & -> & Hc & Hs). rewrite Hx in Hc. apply Ascii.eqb_eq in Hc.
      apply IH in Hs; [ | exact Hf']. simpl; congruence.
    + intros H. apply map_eq_cons in H as (c & s' & -> & Hc & Hs).
      exists c, s'; repeat split.
      * rewrite Hx, Hc; apply Ascii.eqb_refl.
      * apply IH; assumption.
Qed.

Lemma folded_http : Forall folds_to (list_ascii_of_string "http").
Proof. repeat constructor; apply folds_to_checked; vm_compute; reflexivity. Qed.

Lemma folded_s : Forall folds_to (list_ascii_of_string "s").
Proof. repeat constructor; apply folds_to_checked; vm_compute; reflexivity. Qed.

Lemma folded_colon_slashes : Forall folds_to (list_ascii_of_string "://").
Proof. repeat constructor; apply folds_to_checked; vm_compute; reflexivity. Qed.

Lemma lang_chr_s (s : list ascii) :
  lang true (chr "s") s <-> map to_lower s = list_ascii_of_string "s".
Proof.
  rewrite <- (lang_lit_folded "s" s folded_s). simpl lit. rewrite lang_seq. split.
  - intros H; exists s, []; rewrite app_nil_r; simpl; auto.
  - intros (s1 & s2 & -> & H1 & H2). simpl in H2; subst s2.
    rewrite app_nil_r; exact H1.
Qed.

Lemma lang_protocol (s : list ascii) : lang true protocol s <-> scheme s.
Proof.
  unfold protocol, scheme. rewrite lang_opt, lang_seq.
  setoid_rewrite lang_seq. setoid_rewrite lang_opt.
  setoid_rewrite (fun x => lang_lit_folded "http" x folded_http).
  setoid_rewrite (fun x => lang_lit_folded "://" x folded_colon_slashes).
  setoid_rewrite lang_chr_s.
  split.
  - intros [-> | (s1 & s23 & -> & H1 & (s2 & s3 & -> & H2 & H3))]; [left; reflexivity | right].
    rewrite !map_app, H1, H3. destruct H2 as [-> | ->]; [left | right]; reflexivity.
  - intros [-> | [H | H]]; [left; reflexivity | right | right].
    + change (list_ascii_of_string "http://")
        with (list_ascii_of_string "http" ++ list_ascii_of_string "://") in H.
      apply map_eq_app in H as (s1 & s3 & -> & H1 & H3).
      exists s1, s3; repeat split; auto. exists [], s3; auto.
    + change (list_ascii_of_string "https://")
        with (list_ascii_of_string "http" ++ list_ascii_of_string "s"
                ++ list_ascii_of_string "://") in H.
      apply map_eq_app in H as (s1 & s23 & -> & H1 & H23).
      apply map_eq_app in H23 as (s2 & s3 & -> & H2 & H3).
      exists s1, (s2 ++ s3); repeat split; auto. exists s2, s3; auto.
Qed.

(** ** The whole pattern *)

Lemma lang_pattern (s : list ascii) : lang true pattern s <-> acceptable_seed s.
Proof.
  unfold pattern, acceptable_seed. split.
  - intros H.
    apply lang_seq in H as (sch & r1 & -> & Hsch & H).
    apply lang_seq in H as (host & r2 & -> & Hhost & H).
    apply lang_seq in H as (prt & r3 & -> & Hprt & H).
    apply lang_seq in H as (pth & r4 & -> & Hpth & H).
    apply lang_seq in H as (qry & frg & -> & Hqry & Hfrg).
    exists sch, host, prt, pth, qry, frg. split; [reflexivity | ].
    split; [apply lang_protocol, Hsch | ].
    split; [destruct Hhost as [Hd | Hi];
            [left; apply lang_domain_name, Hd | right; apply lang_ip_v4, Hi] | ].
    split; [apply lang_port, Hprt | ].
    split; [apply lang_path, Hpth | ].
    split; [apply lang_query, Hqry | apply lang_fragment, Hfrg].
  - intros (sch & host & prt & pth & qry & frg & -> & Hs & Hh & Hp & Hpa & Hq & Hf).
    apply lang_seq; exists sch, (host ++ prt ++ pth ++ qry ++ frg).
    split; [reflexivity | split; [apply lang_protocol, Hs | ] ].
    apply lang_seq; exists host, (prt ++ pth ++ qry ++ frg).
    split; [reflexivity | split ].
    { destruct Hh as [Hd | Hi];
        [left; apply lang_domain_name, Hd | right; apply lang_ip_v4, Hi]. }
    apply lang_seq; exists prt, (pth ++ qry ++ frg).
    split; [reflexivity | split; [apply lang_port, Hp | ] ].
    apply lang_seq; exists pth, (qry ++ frg).
    split; [reflexivity | split; [apply lang_path, Hpa | ] ].
    apply lang_seq; exists qry, frg.
    split; [reflexivity | split; [apply lang_query, Hq | apply lang_fragment, Hf] ].
Qed.

Lemma validateUrl_spec (url : string) :
  validateUrl url = true <-> acceptable_seed (list_ascii_of_string url).
Proof.
  unfold validateUrl, test. rewrite matches_lang. apply lang_pattern.
Qed.

(** ** Other schemes are refused *)

(** The only colon of an accepted seed outside its scheme introduces the
    port, and digits follow it. *)

Lemma all_colon_free (p : ascii -> bool) (s : list ascii) :
  p ":" = false -> all p s -> colon_free s.
Proof.
  intros Hp Hall Hin. unfold all in Hall. rewrite Forall_forall in Hall.
  apply Hall in Hin. congruence.
Qed.

Lemma colon_free_app (a b : list ascii) :
  colon_free a -> colon_free b -> colon_free (a ++ b).
Proof. unfold colon_free; intros Ha Hb Hin; apply in_app_or in Hin; tauto. Qed.

Lemma colon_free_cons (c : ascii) (s : list ascii) :
  c <> ":" -> colon_free s -> colon_free (c :: s).
Proof. unfold colon_free; intros Hc Hs [E | Hin]; auto. Qed.

Lemma colon_free_nil : colon_free [].
Proof. intros []. Qed.

Lemma colon_free_concat (ss : list (list ascii)) :
  Forall colon_free ss -> colon_free (List.concat ss).
Proof.
  induction 1; simpl; [apply colon_free_nil | apply colon_free_app; assumption].
Qed.

Lemma host_label_colon_free (l : list ascii) : host_label l -> colon_free l.
Proof.
  destruct l as [ | c rest ]; simpl; [tauto | ]. intros (Hc & Hrest & _).
  apply colon_free_cons.
  - intros ->; discriminate Hc.
  - eapply all_colon_free; [ | exact Hrest ]. reflexivity.
Qed.

Lemma quad_part_colon_free (a : list ascii) : quad_part a -> colon_free a.
Proof. intros [_ H]. eapply all_colon_free; [ | exact H ]. reflexivity. Qed.

Lemma dot_colon_free : colon_free ["."].
Proof. apply colon_free_cons; [discriminate | apply colon_free_nil]. Qed.

Lemma hostname_colon_free (h : list ascii) : hostname h -> colon_free h.
Proof.
  intros [(pieces & tld & -> & _ & Hp & _ & Ht) | (a & b & c & d & -> & Ha & Hb & Hc & Hd)].
  - apply colon_free_app.
    + apply colon_free_concat. eapply Forall_impl; [ | exact Hp ].
      intros p (l & -> & Hl).
      apply colon_free_app; [apply host_label_colon_free, Hl | apply dot_colon_free].
    + eapply all_colon_free; [ | exact Ht ]. reflexivity.
  - repeat apply colon_free_app;
      auto using quad_part_colon_free, dot_colon_free.
Qed.

Lemma path_colon_free (s : list ascii) : SeedGrammar.path s -> colon_free s.
Proof.
  intros (segs & -> & H). apply colon_free_concat.
  eapply Forall_impl; [ | exact H ]. intros seg (cs & -> & Hcs).
  apply colon_free_cons; [discriminate | ].
  eapply all_colon_free; [ | exact Hcs ]. reflexivity.
Qed.

Lemma query_colon_free (s : list ascii) : SeedGrammar.query s -> colon_free s.
Proof.
  intros [-> | (cs & -> & Hcs)]; [apply colon_free_nil | ].
  apply colon_free_cons; [discriminate | ].
  eapply all_colon_free; [ | exact Hcs ]. reflexivity.
Qed.

Lemma fragment_colon_free (s : list ascii) : SeedGrammar.fragment s -> colon_free s.
Proof.
  intros [-> | (cs & -> & Hcs)]; [apply colon_free_nil | ].
  apply colon_free_cons; [discriminate | ].
  eapply all_colon_free; [ | exact Hcs ]. reflexivity.
Qed.

(** The text before the first colon is determined. *)
Lemma first_colon (l1 r1 l2 r2 : list ascii) :
  colon_free l1 -> colon_free l2 ->
  l1 ++ ":" :: r1 = l2 ++ ":" :: r2 -> l1 = l2 /\ r1 = r2.
Proof.
  revert l2; induction l1 as [ | a l1 IH ]; intros [ | b l2 ] H1 H2 E; simpl in E.
  - injection E as ->; auto.
  - injection E as <- _. exfalso; apply H2; left; reflexivity.
  - injection E as -> _. exfalso; apply H1; left; reflexivity.
  - injection E as -> E. destruct (IH l2) as [-> ->]; auto.
    + intros Hin; apply H1; right; exact Hin.
    + intros Hin; apply H2; right; exact Hin.
Qed.

Lemma to_lower_colon (c : ascii) : to_lower c = ":" -> c = ":".
Proof.
  intros H. apply Ascii.eqb_eq. apply Ascii.eqb_eq in H. revert H.
  generalize (forall_ascii
                (fun x => implb (Ascii.eqb (to_lower x) ":") (Ascii.eqb x ":"))
                eq_refl c).
  destruct (Ascii.eqb (to_lower c) ":"); simpl; congruence.
Qed.

Lemma lowered_colon_free (s : list ascii) :
  colon_free (map to_lower s) -> colon_free s.
Proof.
  intros H Hin. apply H. change ":" with (to_lower ":"). apply in_map, Hin.
Qed.

(** A scheme in front of a colon: the scheme is http or https. *)
Lemma scheme_before_colon (sch tail sc rest : list ascii) :
  scheme sch -> sch <> [] -> colon_free sc ->
  sch ++ tail = sc ++ ":" :: rest ->
  map to_lower sc = list_ascii_of_string "http" \/
  map to_lower sc = list_ascii_of_string "https".
Proof.
  intros [-> | [H | H]] Hne Hsc E; [congruence | left | right].
  - change (list_ascii_of_string "http://")
      with (list_ascii_of_string "http" ++ list_ascii_of_string "://") in H.
    apply map_eq_app in H as (p & q & -> & Hp & Hq).
    apply map_eq_cons in Hq as (c & q' & -> & Hc & _). apply to_lower_colon in Hc as ->.
    rewrite <- app_assoc in E. simpl in E.
    apply first_colon in E as [<- _]; auto.
    apply lowered_colon_free. rewrite Hp.
    intros Hin; simpl in Hin; repeat (destruct Hin as [Hin | Hin]; [discriminate | ]); auto.
  - change (list_ascii_of_string "https://")
      with (list_ascii_of_string "https" ++ list_ascii_of_string "://") in H.
    apply map_eq_app in H as (p & q & -> & Hp & Hq).
    apply map_eq_cons in Hq as (c & q' & -> & Hc & _). apply to_lower_colon in Hc as ->.
    rewrite <- app_assoc in E. simpl in E.
    apply first_colon in E as [<- _]; auto.
    apply lowered_colon_free. rewrite Hp.
    intros Hin; simpl in Hin; repeat (destruct Hin as [Hin | Hin]; [discriminate | ]); auto.
Qed.

Lemma other_scheme_not_acceptable (sc rest : list ascii) :
  colon_free sc ->
  map to_lower sc <> list_ascii_of_string "http" ->
  map to_lower sc <> list_ascii_of_string "https" ->
  ~ acceptable_seed (sc ++ list_ascii_of_string "://" ++ rest).
Proof.
  intros Hsc Hhttp Hhttps (sch & host & prt & pth & qry & frg & E & Hs & Hh & Hp & Hpa & Hq & Hf).
  simpl in E. symmetry in E.
  destruct sch as [ | c0 sch' ].
  - simpl in E.
    assert (Htail : colon_free (pth ++ qry ++ frg)).
    { repeat apply colon_free_app;
        auto using path_colon_free, query_colon_free, fragment_colon_free. }
    destruct Hp as [-> | (ds & -> & Hne & Hds)].
    + simpl in E.
      assert (Hall : colon_free (host ++ pth ++ qry ++ frg)).
      { apply colon_free_app; auto using hostname_colon_free. }
      apply Hall. rewrite E. apply in_or_app; right; left; reflexivity.
    + simpl in E. apply first_colon in E as [_ E]; auto using hostname_colon_free.
      destruct Hds as [ | d ds' Hd _ ]; [congruence | ].
      simpl in E. injection E as -> _. discriminate Hd.
  - apply scheme_before_colon in E; auto; [tauto | discriminate].
Qed.

End ValidateUrlFacts.

(* ================================================================== *)
(** * Facts about the task client                                     *)
(* ================================================================== *)

Module CrawlServiceFacts.
Import Js CrawlService ClientOutcomes.

Local Open Scope string_scope.

Lemma startCrawl_unfold (startUrl : string) :
  startCrawl startUrl = Fetch (start_request startUrl) startCrawl_k.
Proof. reflexivity. Qed.

Lemma checkTaskStatus_unfold (taskId : value) :
  checkTaskStatus taskId = Fetch (status_request taskId) checkTaskStatus_k.
Proof. reflexivity. Qed.


Lemma startCrawl_k_cases (o : fetch_outcome) :
  match o with
  | Failed reason => startCrawl_k o = Throw (Rejection reason)
  | Resolved r =>
      if ok r
      then match json r with
           | inr v => startCrawl_k o = Return v
           | inl reason => startCrawl_k o = Throw (Rejection reason)
           end
      else startCrawl_k o = Throw (Error ("HTTP error! status: " ++ show_nat (status r)))
  end.
Proof.
  destruct o as [r | reason]; [ | reflexivity].
  unfold startCrawl_k; simpl. unfold read_json.
  destruct (ok r); simpl; [destruct (json r) | ]; reflexivity.
Qed.

Lemma checkTaskStatus_k_cases (o : fetch_outcome) :
  match o with
  | Failed reason => checkTaskStatus_k o = Throw (Rejection reason)
  | Resolved r =>
      if ok r
      then match json r with
           | inr v => checkTaskStatus_k o = Return v
           | inl reason => checkTaskStatus_k o = Throw (Rejection reason)
           end
      else if Nat.eqb (status r) 404
           then checkTaskStatus_k o = Throw (Error "Task not found.")
           else checkTaskStatus_k o =
                Throw (Error ("HTTP error! status: " ++ show_nat (status r)))
  end.
Proof.
  destruct o as [r | reason]; [ | reflexivity].
  unfold checkTaskStatus_k; simpl. unfold read_json.
  destruct (ok r); simpl; [destruct (json r) | destruct (Nat.eqb (status r) 404)];
    reflexivity.
Qed.

End CrawlServiceFacts.

(* ================================================================== *)
(** * Facts about the component                                       *)
(* ================================================================== *)

Module AppFacts.
Import Js App ClientOutcomes CrawlServiceFacts Worlds.

Local Open Scope string_scope.

Lemma startCrawl_k_single_shot : single_shot startCrawl_k.
Proof.
  intros o. pose proof (startCrawl_k_cases o) as H.
  destruct o as [r | reason]; [ | rewrite H; exact I].
  destruct (ok r); [destruct (json r) | ]; rewrite H; exact I.
Qed.

Lemma checkTaskStatus_k_single_shot : single_shot checkTaskStatus_k.
Proof.
  intros o. pose proof (checkTaskStatus_k_cases o) as H.
  destruct o as [r | reason]; [ | rewrite H; exact I].
  destruct (ok r); [destruct (json r) | destruct (Nat.eqb (status r) 404)];
    rewrite H; exact I.
Qed.

Lemma wf_initial : wf initial_world.
Proof. split; constructor. Qed.

Lemma wf_with_app (f : state -> state) (w : world) : wf w -> wf (with_app f w).
Proof. intros [H1 H2 H3 H4]; split; assumption. Qed.

Lemma wf_clearInterval (h : nat) (w : world) : wf w -> wf (clearInterval h w).
Proof.
  intros [H1 H2 H3 H4]; split; simpl; auto;
    rewrite Forall_forall in *; intros i Hi; apply filter_In in Hi as [Hi _]; auto.
Qed.

Lemma wf_setInterval (id : value) (w : world) : wf w -> wf (setInterval id POLL_DELAY w).
Proof.
  intros [H1 H2 H3 H4]; split; simpl.
  - apply Forall_app; split.
    + eapply Forall_impl; [ | exact H1 ]. simpl; intros; lia.
    + constructor; [simpl; lia | constructor].
  - apply Forall_app; split; [exact H2 | constructor; [reflexivity | constructor] ].
  - exact H3.
  - eapply Forall_impl; [ | exact H4 ]. simpl; intros p Hp h Hh.
    specialize (Hp h Hh); lia.
Qed.

Lemma wf_issue (req : request) (k : fetch_outcome -> async value)
      (c : continuation) (w : world) :
  single_shot k -> (forall h, c = AfterStatus h -> h < next_handle w) ->
  wf w -> wf (issue req k c w).
Proof.
  intros Hk Hc [H1 H2 H3 H4]; split; simpl; auto.
  - apply Forall_app; split; [exact H3 | constructor; [exact Hk | constructor] ].
  - apply Forall_app; split; [exact H4 | constructor; [exact Hc | constructor] ].
Qed.

Lemma wf_remove_pending (id : nat) (w : world) : wf w -> wf (remove_pending id w).
Proof.
  intros [H1 H2 H3 H4]; split; simpl; auto;
    rewrite Forall_forall in *; intros p Hp; apply filter_In in Hp as [Hp _];
    first [exact (H3 p Hp) | exact (H4 p Hp)].
Qed.

Lemma wf_submit_catch (e : exn) (w : world) : wf w -> wf (submit_catch e w).
Proof. intros H; unfold submit_catch; auto using wf_with_app. Qed.

Lemma wf_status_catch (h : nat) (e : exn) (w : world) : wf w -> wf (status_catch h e w).
Proof. intros H; unfold status_catch; auto using wf_with_app, wf_clearInterval. Qed.

Lemma wf_submit_then (data : value) (w : world) : wf w -> wf (submit_then data w).
Proof.
  intros H; unfold submit_then, checkTaskStatus.
  destruct (get data "task_id"); auto using wf_submit_catch, wf_setInterval, wf_with_app.
Qed.

Lemma wf_status_then (h : nat) (data : value) (w : world) :
  wf w -> wf (status_then h data w).
Proof.
  intros H; unfold status_then.
  destruct (get data "status") as [e | st]; [auto using wf_status_catch | ].
  destruct (strict_eq_string st "completed" || strict_eq_string st "failed");
    [ | auto using wf_with_app].
  destruct (strict_eq_string st "completed"); [ | auto 6 using wf_with_app, wf_clearInterval].
  destruct (get data "crawled_data");
    auto 8 using wf_status_catch, wf_with_app, wf_clearInterval.
Qed.

Lemma wf_run_settled (m : async value) (c : continuation) (w : world) :
  settled m -> wf w -> wf (run m c w).
Proof.
  intros Hm H; destruct m as [data | e | req k]; simpl in *; [ | | tauto];
    destruct c; auto using wf_submit_then, wf_status_then, wf_submit_catch, wf_status_catch.
Qed.

Lemma wf_startCrawl (w : world) : wf w -> wf (App.startCrawl w).
Proof.
  intros H; unfold App.startCrawl.
  destruct (negb (ValidateUrl.validateUrl (startUrl (app w)))); [auto using wf_with_app | ].
  rewrite startCrawl_unfold; simpl run. apply wf_issue.
  - apply startCrawl_k_single_shot.
  - discriminate.
  - auto using wf_with_app.
Qed.

Lemma find_some_handle (h : nat) (l : list interval) (i : interval) :
  find (fun i => Nat.eqb (handle i) h) l = Some i -> In i l /\ handle i = h.
Proof. intros H; apply find_some in H as [Hin Hh]; apply Nat.eqb_eq in Hh; auto. Qed.

Lemma find_pending_some (id : nat) (w : world) (p : pending) :
  find_pending id w = Some p -> In p (inflight w) /\ p_id p = id.
Proof. intros H; apply find_some in H as [Hin Hh]; apply Nat.eqb_eq in Hh; auto. Qed.

Lemma wf_tick (h : nat) (w : world) : wf w -> wf (tick h w).
Proof.
  intros H; unfold tick.
  destruct (find _ (intervals w)) as [i | ] eqn:E; [ | exact H].
  apply find_some_handle in E as [Hin Hh].
  rewrite checkTaskStatus_unfold; simpl run. apply wf_issue; auto.
  - apply checkTaskStatus_k_single_shot.
  - intros h' Eh; injection Eh as <-.
    destruct H as [H1 _ _ _]. rewrite Forall_forall in H1.
    specialize (H1 i Hin); lia.
Qed.

Lemma wf_settle (id : nat) (o : fetch_outcome) (w : world) : wf w -> wf (settle id o w).
Proof.
  intros H; unfold settle.
  destruct (find_pending id w) as [p | ] eqn:E; [ | exact H].
  apply find_pending_some in E as [Hin _].
  apply wf_run_settled; [ | apply wf_remove_pending, H].
  destruct H as [_ _ H3 _]. rewrite Forall_forall in H3. apply (H3 p Hin).
Qed.

Lemma wf_step (w : world) (e : event) : wf w -> wf (step w e).
Proof.
  intros H; destruct e as [v | key | | h | id o]; simpl.
  - unfold handleUrlChange; auto using wf_with_app.
  - unfold handleKeyPress. destruct (String.eqb key "Enter"); [ | exact H].
    destruct (ValidateUrl.validateUrl _); auto using wf_with_app, wf_startCrawl.
  - unfold handleClick. destruct (button_disabled _); auto using wf_startCrawl.
  - apply wf_tick, H.
  - apply wf_settle, H.
Qed.

Lemma wf_exec (evs : list event) (w : world) : wf w -> wf (exec w evs).
Proof.
  revert w; induction evs as [ | e evs IH ]; intros w H; simpl; [exact H | ].
  apply IH, wf_step, H.
Qed.

Lemma wf_reachable (w : world) : reachable w -> wf w.
Proof. intros (evs & ->); apply wf_exec, wf_initial. Qed.

(** ** How a fetch settles *)

Lemma settle_found (id : nat) (o : fetch_outcome) (w : world) (p : pending) :
  find_pending id w = Some p ->
  settle id o w = run (p_k p o) (p_cont p) (remove_pending id w).
Proof. unfold settle; intros ->; reflexivity. Qed.

Lemma find_pending_removed (id : nat) (w : world) :
  find_pending id (remove_pending id w) = None.
Proof.
  unfold find_pending, remove_pending; simpl.
  induction (inflight w) as [ | p l IH ]; simpl; [reflexivity | ].
  destruct (Nat.eqb (p_id p) id) eqn:E; simpl; [exact IH | ].
  rewrite E; exact IH.
Qed.

Lemma not_in_cleared (h : nat) (w : world) : ~ In h (handles (clearInterval h w)).
Proof.
  unfold handles, clearInterval; simpl. intros Hin.
  apply in_map_iff in Hin as (i & Hi & Hin). apply filter_In in Hin as [_ Hne].
  rewrite Hi, Nat.eqb_refl in Hne; discriminate.
Qed.

Lemma tick_cleared (h : nat) (w : world) : ~ In h (handles w) -> tick h w = w.
Proof.
  intros Hn; unfold tick.
  destruct (find _ (intervals w)) as [i | ] eqn:E; [ | reflexivity].
  apply find_some_handle in E as [Hin Hh]. exfalso; apply Hn.
  unfold handles; rewrite <- Hh; apply in_map, Hin.
Qed.

(** ** An interval that was cleared stays silent *)

Lemma quiet_refl (h : nat) (w : world) : quiet_for h w w.
Proof. repeat split; auto. Qed.

Lemma quiet_trans (h : nat) (w1 w2 w3 : world) :
  quiet_for h w1 w2 -> quiet_for h w2 w3 -> quiet_for h w1 w3.
Proof.
  intros (A1 & A2 & A3) (B1 & B2 & B3); repeat split; [lia | | congruence].
  intros x Hx. destruct (B2 x Hx) as [Hin | Hge]; [auto | right; lia].
Qed.

Lemma retired_quiet (h : nat) (w w' : world) :
  retired h w -> quiet_for h w w' -> retired h w'.
Proof.
  intros [H1 H2] (A1 & A2 & _); split; [lia | ].
  intros Hin; destruct (A2 h Hin) as [Hin' | Hge]; [auto | lia].
Qed.

Lemma quiet_with_app (h : nat) (f : state -> state) (w : world) :
  quiet_for h w (with_app f w).
Proof. repeat split; auto. Qed.

Lemma quiet_remove_pending (h id : nat) (w : world) :
  quiet_for h w (remove_pending id w).
Proof. repeat split; auto. Qed.

Lemma quiet_clearInterval (h h' : nat) (w : world) :
  quiet_for h w (clearInterval h' w).
Proof.
  repeat split; auto. intros x Hx; left.
  unfold handles, clearInterval in *; simpl in Hx.
  apply in_map_iff in Hx as (i & Hi & Hin). apply filter_In in Hin as [Hin _].
  rewrite <- Hi; apply in_map, Hin.
Qed.

Lemma quiet_setInterval (h : nat) (id : value) (d : nat) (w : world) :
  quiet_for h w (setInterval id d w).
Proof.
  repeat split; simpl; [lia | ].
  intros x Hx. unfold handles in *; simpl in Hx. rewrite map_app in Hx.
  apply in_app_or in Hx as [Hx | [Hx | [] ] ]; [auto | simpl in Hx; right; lia].
Qed.

Lemma quiet_issue (h : nat) (req : request) (k : fetch_outcome -> async value)
      (c : continuation) (w : world) :
  c <> AfterStatus h -> quiet_for h w (issue req k c w).
Proof.
  intros Hc; repeat split; auto.
  unfold requests_of, issue; simpl. rewrite filter_app; simpl.
  destruct c as [ | h' ]; simpl; [rewrite app_nil_r; reflexivity | ].
  destruct (Nat.eqb h' h) eqn:E; [ | rewrite app_nil_r; reflexivity].
  apply Nat.eqb_eq in E; congruence.
Qed.

Lemma quiet_submit_catch (h : nat) (e : exn) (w : world) :
  quiet_for h w (submit_catch e w).
Proof. repeat split; auto. Qed.

Lemma quiet_status_catch (h h' : nat) (e : exn) (w : world) :
  quiet_for h w (status_catch h' e w).
Proof.
  unfold status_catch.
  eapply quiet_trans; [ | apply quiet_with_app].
  eapply quiet_trans; [ | apply quiet_clearInterval].
  apply quiet_with_app.
Qed.

Lemma quiet_submit_then (h : nat) (data : value) (w : world) :
  quiet_for h w (submit_then data w).
Proof.
  unfold submit_then, checkTaskStatus.
  destruct (get data "task_id"); [apply quiet_submit_catch | ].
  eapply quiet_trans; [apply quiet_with_app | apply quiet_setInterval].
Qed.

Lemma quiet_status_then (h h' : nat) (data : value) (w : world) :
  quiet_for h w (status_then h' data w).
Proof.
  unfold status_then.
  destruct (get data "status") as [e | st]; [apply quiet_status_catch | ].
  destruct (strict_eq_string st "completed" || strict_eq_string st "failed");
    [ | apply quiet_with_app].
  assert (Q : quiet_for h w
                (with_app (setLoading false)
                   (clearInterval h' (with_app (setTaskStatus st) w)))).
  { eapply quiet_trans; [ | apply quiet_with_app].
    eapply quiet_trans; [apply quiet_with_app | apply quiet_clearInterval]. }
  destruct (strict_eq_string st "completed").
  - destruct (get data "crawled_data").
    + eapply quiet_trans; [exact Q | apply quiet_status_catch].
    + eapply quiet_trans; [exact Q | apply quiet_with_app].
  - eapply quiet_trans; [exact Q | apply quiet_with_app].
Qed.

Lemma quiet_run_settled (h : nat) (m : async value) (c : continuation) (w : world) :
  settled m -> quiet_for h w (run m c w).
Proof.
  intros Hm; destruct m as [data | e | req k]; simpl in *; [ | | tauto]; destruct c;
    auto using quiet_submit_then, quiet_status_then, quiet_submit_catch, quiet_status_catch.
Qed.

Lemma quiet_startCrawl (h : nat) (w : world) : quiet_for h w (App.startCrawl w).
Proof.
  unfold App.startCrawl.
  destruct (negb (ValidateUrl.validateUrl (startUrl (app w)))).
  - repeat split; auto.
  - rewrite startCrawl_unfold; simpl run.
    eapply quiet_trans; [ | apply quiet_issue; discriminate].
    repeat split; auto.
Qed.

Lemma quiet_step (h : nat) (w : world) (e : event) :
  wf w -> retired h w -> quiet_for h w (step w e).
Proof.
  intros Hwf [Hlt Hnot]; destruct e as [v | key | | h' | id o]; simpl.
  - repeat split; auto.
  - unfold handleKeyPress. destruct (String.eqb key "Enter"); [ | apply quiet_refl].
    destruct (ValidateUrl.validateUrl _); [ | apply quiet_with_app].
    eapply quiet_trans; [apply quiet_with_app | apply quiet_startCrawl].
  - unfold handleClick. destruct (button_disabled _);
      [apply quiet_refl | apply quiet_startCrawl].
  - unfold tick. destruct (find _ (intervals w)) as [i | ] eqn:E; [ | apply quiet_refl].
    apply find_some_handle in E as [Hin Hh].
    rewrite checkTaskStatus_unfold; simpl run. apply quiet_issue.
    intros Eh; injection Eh as ->. apply Hnot.
    unfold handles; rewrite <- Hh; apply in_map, Hin.
  - unfold settle. destruct (find_pending id w) as [p | ] eqn:E; [ | apply quiet_refl].
    apply find_pending_some in E as [Hin _].
    eapply quiet_trans; [apply quiet_remove_pending | apply quiet_run_settled].
    destruct Hwf as [_ _ H3 _]. rewrite Forall_forall in H3. apply (H3 p Hin).
Qed.

Lemma quiet_exec (h : nat) (evs : list event) (w : world) :
  wf w -> retired h w -> quiet_for h w (exec w evs).
Proof.
  revert w; induction evs as [ | e evs IH ]; intros w Hwf Hret; simpl.
  - apply quiet_refl.
  - pose proof (quiet_step h w e Hwf Hret) as Q.
    eapply quiet_trans; [exact Q | ].
    apply IH; [apply wf_step, Hwf | eapply retired_quiet; eassumption].
Qed.

(** ** Only a start call sets the loading flag *)

Lemma run_keeps_not_loading (m : async value) (c : continuation) (w : world) :
  loading (app w) = false -> loading (app (run m c w)) = false.
Proof.
  intros H; destruct m as [data | e | req k]; simpl; [ | destruct c; reflexivity | exact H].
  destruct c as [ | h ].
  - unfold submit_then. destruct (get data "task_id"); [reflexivity | exact H].
  - unfold status_then. destruct (get data "status") as [e | st]; [reflexivity | ].
    destruct (strict_eq_string st "completed" || strict_eq_string st "failed");
      [ | exact H].
    destruct (strict_eq_string st "completed"); [ | reflexivity].
    destruct (get data "crawled_data"); reflexivity.
Qed.

Lemma step_keeps_not_loading (w : world) (e : event) :
  is_start e = false -> loading (app w) = false -> loading (app (step w e)) = false.
Proof.
  intros He H; destruct e as [v | key | | h | id o]; simpl in *; try discriminate.
  - exact H.
  - unfold tick. destruct (find _ (intervals w)); [ | exact H].
    apply run_keeps_not_loading, H.
  - unfold settle. destruct (find_pending id w); [ | exact H].
    apply run_keeps_not_loading, H.
Qed.

Lemma exec_keeps_not_loading (evs : list event) (w : world) :
  forallb (fun e => negb (is_start e)) evs = true ->
  loading (app w) = false -> loading (app (exec w evs)) = false.
Proof.
  revert w; induction evs as [ | e evs IH ]; intros w He H; simpl in *; [exact H | ].
  apply andb_true_iff in He as [He1 He2]. apply negb_true_iff in He1.
  apply IH; [exact He2 | apply step_keeps_not_loading; assumption].
Qed.

(** ** What a start call leaves alone *)

Lemma startCrawl_snapshot (w : world) :
  snapshot (app (App.startCrawl w)) = snapshot (app w).
Proof.
  unfold App.startCrawl.
  destruct (negb (ValidateUrl.validateUrl (startUrl (app w)))); reflexivity.
Qed.

Lemma startCrawl_intervals (w : world) : intervals (App.startCrawl w) = intervals w.
Proof.
  unfold App.startCrawl.
  destruct (negb (ValidateUrl.validateUrl (startUrl (app w)))); reflexivity.
Qed.

Lemma startCrawl_inflight (w : world) :
  exists new, inflight (App.startCrawl w) = (inflight w ++ new)%list.
Proof.
  unfold App.startCrawl.
  destruct (negb (ValidateUrl.validateUrl (startUrl (app w)))).
  - exists []; simpl; rewrite app_nil_r; reflexivity.
  - eexists; reflexivity.
Qed.

Lemma strict_eq_string_true (v : value) (text : string) :
  strict_eq_string v text = true -> v = VString text.
Proof.
  destruct v; simpl; try discriminate. intros H; apply String.eqb_eq in H; congruence.
Qed.

(** ** Who clears an interval *)

Lemma in_cleared (x h : nat) (w : world) :
  In x (handles w) -> x <> h -> In x (handles (clearInterval h w)).
Proof.
  unfold handles, clearInterval; simpl. intros Hin Hne.
  apply in_map_iff in Hin as (i & Hi & Hin). apply in_map_iff. exists i; split; auto.
  apply filter_In; split; auto. apply negb_true_iff, Nat.eqb_neq. congruence.
Qed.

Lemma in_status_catch (x h : nat) (e : exn) (w : world) :
  In x (handles w) -> x <> h -> In x (handles (status_catch h e w)).
Proof.
  intros Hin Hne.
  apply (in_cleared x h
           (with_app (setErrorMessage ("Network error: " ++ message e)) w) Hin Hne).
Qed.

Lemma in_status_then (x h : nat) (data : value) (w : world) :
  In x (handles w) -> x <> h -> In x (handles (status_then h data w)).
Proof.
  intros Hin Hne. unfold status_then.
  destruct (get data "status") as [e | st]; [apply in_status_catch; assumption | ].
  destruct (strict_eq_string st "completed" || strict_eq_string st "failed");
    [ | exact Hin].
  pose proof (in_cleared x h (with_app (setTaskStatus st) w) Hin Hne) as Hc.
  destruct (strict_eq_string st "completed"); [ | exact Hc].
  destruct (get data "crawled_data"); [ | exact Hc].
  apply in_status_catch; [exact Hc | exact Hne].
Qed.

Lemma in_submit_then (x : nat) (data : value) (w : world) :
  In x (handles w) -> In x (handles (submit_then data w)).
Proof.
  intros Hin. unfold submit_then. destruct (get data "task_id"); [exact Hin | ].
  unfold checkTaskStatus, handles; simpl. rewrite map_app. apply in_or_app; left.
  exact Hin.
Qed.

Lemma status_then_clears_terminal (h : nat) (data : value) (st : string) (w : world) :
  get data "status" = inr (VString st) ->
  st = "completed" \/ st = "failed" ->
  ~ In h (handles (status_then h data w))
  /\ loading (app (status_then h data w)) = false.
Proof.
  intros Hst Hterm. unfold status_then. rewrite Hst.
  destruct Hterm as [-> | ->]; simpl.
  - destruct (get data "crawled_data"); split; try reflexivity.
    + apply (not_in_cleared h
               (with_app (setErrorMessage ("Network error: " ++ message e))
                  (with_app (setLoading false)
                     (clearInterval h
                        (with_app (setTaskStatus (VString "completed")) w))))).
    + apply (not_in_cleared h (with_app (setTaskStatus (VString "completed")) w)).
  - split; [ | reflexivity].
    apply (not_in_cleared h (with_app (setTaskStatus (VString "failed")) w)).
Qed.

(** ** Nothing polls while no interval is active and no submission awaited *)

Lemma status_catch_idle (h : nat) (e : exn) (w : world) :
  inflight (status_catch h e w) = inflight w
  /\ sent (status_catch h e w) = sent w
  /\ taskId (app (status_catch h e w)) = taskId (app w)
  /\ (intervals w = [] -> intervals (status_catch h e w) = []).
Proof.
  repeat split. intros H. simpl. rewrite H. reflexivity.
Qed.

Lemma status_then_idle (h : nat) (data : value) (w : world) :
  inflight (status_then h data w) = inflight w
  /\ sent (status_then h data w) = sent w
  /\ taskId (app (status_then h data w)) = taskId (app w)
  /\ (intervals w = [] -> intervals (status_then h data w) = []).
Proof.
  unfold status_then.
  destruct (get data "status") as [e | st]; [apply status_catch_idle | ].
  destruct (strict_eq_string st "completed" || strict_eq_string st "failed");
    [ | repeat split; auto].
  destruct (strict_eq_string st "completed").
  - destruct (get data "crawled_data");
      repeat split; intros H; simpl; rewrite H; reflexivity.
  - repeat split; intros H; simpl; rewrite H; reflexivity.
Qed.

Lemma no_submit_remove_pending (id : nat) (w : world) :
  no_submit_in_flight w -> no_submit_in_flight (remove_pending id w).
Proof.
  unfold no_submit_in_flight; simpl. intros H. rewrite Forall_forall in *.
  intros p Hp. apply filter_In in Hp as [Hp _]. apply H, Hp.
Qed.

Lemma idle_step (w : world) (e : event) :
  wf w -> is_start e = false ->
  intervals w = [] -> no_submit_in_flight w ->
  intervals (step w e) = []
  /\ no_submit_in_flight (step w e)
  /\ sent (step w e) = sent w
  /\ taskId (app (step w e)) = taskId (app w).
Proof.
  intros Hwf He Hint Hsub. destruct e as [v | key | | h | id o]; simpl in *;
    try discriminate.
  - repeat split; auto.
  - unfold tick. rewrite Hint. simpl. repeat split; auto.
  - unfold settle. destruct (find_pending id w) as [p | ] eqn:Hfind;
      [ | repeat split; auto].
    apply find_pending_some in Hfind as [Hin _].
    pose proof (no_submit_remove_pending id w Hsub) as Hsub'.
    assert (Hk : settled (p_k p o)).
    { destruct Hwf as [_ _ H3 _]. rewrite Forall_forall in H3. apply (H3 p Hin). }
    assert (Hc : p_cont p <> AfterSubmit).
    { unfold no_submit_in_flight in Hsub. rewrite Forall_forall in Hsub.
      apply (Hsub p Hin). }
    destruct (p_cont p) as [ | h ]; [congruence | ].
    destruct (p_k p o) as [data | error | req k]; [ | | contradiction]; unfold run.
    + destruct (status_then_idle h data (remove_pending id w)) as (E1 & E2 & E3 & E4).
      unfold no_submit_in_flight. rewrite E1, E2, E3. auto.
    + destruct (status_catch_idle h error (remove_pending id w)) as (E1 & E2 & E3 & E4).
      unfold no_submit_in_flight. rewrite E1, E2, E3. auto.
Qed.

Lemma idle_exec (evs : list event) (w : world) :
  wf w -> forallb (fun e => negb (is_start e)) evs = true ->
  intervals w = [] -> no_submit_in_flight w ->
  intervals (exec w evs) = []
  /\ sent (exec w evs) = sent w
  /\ taskId (app (exec w evs)) = taskId (app w).
Proof.
  revert w; induction evs as [ | e evs IH ]; intros w Hwf Hev Hint Hsub; simpl in *.
  - auto.
  - apply andb_true_iff in Hev as [He Hev]. apply negb_true_iff in He.
    destruct (idle_step w e Hwf He Hint Hsub) as (I1 & I2 & I3 & I4).
    destruct (IH (step w e) (wf_step w e Hwf) Hev I1 I2) as (J1 & J2 & J3).
    rewrite J2, J3. auto.
Qed.

End AppFacts.

Module Claims.
Import Js.
Import ClientOutcomes CrawlServiceFacts.

Local Open Scope string_scope.



(** C7 (as stated, false). The interval of task t2 has fired twice when its
    first poll fails: the error is shown, the loading flag and the interval
    are cleared.  The second poll, in flight since before the failure, then
    returns completed, and with no start call the handler stores the status
    completed and the crawled data: the life cycle did not stay failed. *)
Lemma poll_error_counterexample :
  App.errorMessage (App.app Scenarios.world_poll_failed)
  = "Network error: Failed to fetch"
  /\ App.loading (App.app Scenarios.world_poll_failed) = false
  /\ App.intervals Scenarios.world_poll_failed = []
  /\ App.snapshot (App.app Scenarios.world_poll_failed)
     = (VString "t2", VString "", VObject [])
  /\ Worlds.is_start Scenarios.late_completed = false
  /\ App.snapshot (App.app (App.step Scenarios.world_poll_failed
                                     Scenarios.late_completed))
     = (VString "t2", VString "completed", Scenarios.example_result)
  /\ App.snapshot (App.app (App.step Scenarios.world_poll_failed
                                     Scenarios.late_completed))
     <> App.snapshot (App.app Scenarios.world_poll_failed).
Proof. vm_compute. repeat split; discriminate. Qed.

(** C7 (amended). An error in the middle of polling is not retried.  In a
    well-formed world (every reachable world is one, [AppFacts.wf_reachable]),
    when the status call awaited by the callback of interval [h] throws
    (transport failure, unknown task or any other error of the task client),
    the handler shows the error, clears the loading flag and the interval, and
    keeps the task id; whatever happens afterwards, interval [h] is never
    active again and its callback makes no further request; as long as no
    start call is made, the loading flag stays cleared; and if no other
    interval is active and no submission is awaited, then as long as no start
    call is made nothing is sent, no interval becomes active and the task id
    stays.  Polls that were in flight at the failure are still applied when
    they settle. *)
Theorem poll_error_ends_polling (w : App.world) (id : nat) (o : fetch_outcome)
        (p : App.pending) (h : nat) (error : exn) :
  Worlds.wf w ->
  App.find_pending id w = Some p ->
  App.p_cont p = App.AfterStatus h ->
  App.p_k p o = Throw error ->
  let w' := App.settle id o w in
  App.errorMessage (App.app w') = "Network error: " ++ message error
  /\ App.loading (App.app w') = false
  /\ App.taskId (App.app w') = App.taskId (App.app w)
  /\ (forall evs,
         ~ In h (App.handles (App.exec w' evs))
         /\ App.requests_of (App.AfterStatus h) (App.exec w' evs)
            = App.requests_of (App.AfterStatus h) w)
  /\ (forall evs,
         forallb (fun e => negb (Worlds.is_start e)) evs = true ->
         App.loading (App.app (App.exec w' evs)) = false)
  /\ (forall evs,
         forallb (fun e => negb (Worlds.is_start e)) evs = true ->
         App.intervals w' = [] ->
         Worlds.no_submit_in_flight w' ->
         App.intervals (App.exec w' evs) = []
         /\ App.sent (App.exec w' evs) = App.sent w
         /\ App.taskId (App.app (App.exec w' evs)) = App.taskId (App.app w)).
Proof.
  intros Hwf Hfind Hcont Hk w'.
  assert (Ew : w' = App.status_catch h error (App.remove_pending id w)).
  { subst w'. rewrite (AppFacts.settle_found id o w p Hfind), Hk, Hcont. reflexivity. }
  assert (Hwf' : Worlds.wf w').
  { subst w'. apply AppFacts.wf_settle, Hwf. }
  assert (Hret : Worlds.retired h w').
  { split.
    - rewrite Ew; simpl.
      apply AppFacts.find_pending_some in Hfind as [Hin _].
      destruct Hwf as [_ _ _ H4]. rewrite Forall_forall in H4. apply (H4 p Hin h Hcont).
    - rewrite Ew. unfold App.status_catch.
      apply (AppFacts.not_in_cleared h
               (App.with_app (App.setErrorMessage ("Network error: " ++ message error))
                             (App.remove_pending id w))). }
  split; [rewrite Ew; reflexivity | ].
  split; [rewrite Ew; reflexivity | ].
  split; [rewrite Ew; reflexivity | ].
  split.
  { intros evs. pose proof (AppFacts.quiet_exec h evs w' Hwf' Hret) as Q. split.
    - apply (AppFacts.retired_quiet h w' _ Hret Q).
    - destruct Q as (_ & _ & ->). rewrite Ew; reflexivity. }
  split.
  - intros evs Hev. apply AppFacts.exec_keeps_not_loading; [exact Hev | ].
    rewrite Ew; reflexivity.
  - intros evs Hev Hint Hsub.
    destruct (AppFacts.idle_exec evs w' Hwf' Hev Hint Hsub) as (J1 & J2 & J3).
    split; [exact J1 | ]. rewrite J2, J3, Ew. split; reflexivity.
Qed.

(** C10. A failed submission changes no task state.  When the submit call
    awaited by [startCrawl] throws, the handler sets the error message and
    clears the loading flag; the task id, the task status and the crawled
    data keep their values, no interval is created, no request is made, and
    the call is over. *)
Theorem submission_failure_is_atomic (w : App.world) (id : nat) (o : fetch_outcome)
        (p : App.pending) (error : exn) :
  App.find_pending id w = Some p ->
  App.p_cont p = App.AfterSubmit ->
  App.p_k p o = Throw error ->
  let w' := App.settle id o w in
  App.snapshot (App.app w') = App.snapshot (App.app w)
  /\ App.errorMessage (App.app w') = "Network error: " ++ message error
  /\ App.loading (App.app w') = false
  /\ App.startUrl (App.app w') = App.startUrl (App.app w)
  /\ App.isUrlValid (App.app w') = App.isUrlValid (App.app w)
  /\ App.intervals w' = App.intervals w
  /\ App.sent w' = App.sent w
  /\ App.next_handle w' = App.next_handle w
  /\ App.find_pending id w' = None.
Proof.
  intros Hfind Hcont Hk w'.
  assert (Ew : w' = App.submit_catch error (App.remove_pending id w)).
  { subst w'. rewrite (AppFacts.settle_found id o w p Hfind), Hk, Hcont. reflexivity. }
  rewrite Ew. repeat split. apply (AppFacts.find_pending_removed id w).
Qed.

(** C6. A seed the validator rejects is refused on the spot.  [startCrawl]
    then makes no request, awaits nothing, creates no interval and leaves the
    task id, the task status, the crawled data and the loading flag as they
    were; it marks the URL invalid and shows "Invalid URL.", a message no
    failed submission or poll produces.  The same holds for the two events
    that call it: they make no request and change no task state. *)
Theorem invalid_seed_refused (w : App.world) :
  ValidateUrl.validateUrl (App.startUrl (App.app w)) = false ->
  let w' := App.startCrawl w in
  (App.sent w' = App.sent w
   /\ App.inflight w' = App.inflight w
   /\ App.intervals w' = App.intervals w
   /\ App.snapshot (App.app w') = App.snapshot (App.app w)
   /\ App.loading (App.app w') = App.loading (App.app w)
   /\ App.isUrlValid (App.app w') = false
   /\ App.errorMessage (App.app w') = "Invalid URL."
   /\ (forall error, App.errorMessage (App.app w') <> "Network error: " ++ message error)
   /\ App.errorMessage (App.app w') <> "Task failed.")
  /\ (forall e, Worlds.is_start e = true ->
                App.sent (App.step w e) = App.sent w
                /\ App.inflight (App.step w e) = App.inflight w
                /\ App.intervals (App.step w e) = App.intervals w
                /\ App.snapshot (App.app (App.step w e)) = App.snapshot (App.app w)
                /\ App.loading (App.app (App.step w e)) = App.loading (App.app w)).
Proof.
  intros Hinvalid w'. split.
  - subst w'. unfold App.startCrawl. rewrite Hinvalid. simpl.
    repeat split; discriminate.
  - intros e He. destruct e as [v | key | | h | id o]; simpl in He; try discriminate; simpl.
    + unfold App.handleKeyPress. destruct (String.eqb key "Enter"); [ | repeat split].
      rewrite Hinvalid. repeat split.
    + unfold App.handleClick. destruct (App.button_disabled _); [repeat split | ].
      unfold App.startCrawl. rewrite Hinvalid. repeat split.
Qed.

(** C5. The poll loop runs at a fixed interval of 2000 ms.  Every interval
    of every reachable world has the delay 2000.  When a status call awaited
    by the callback of interval [h] returns a body whose status is
    in_progress or initiated, the handler stores that status and leaves the
    intervals as they are, so the same interval fires again.  When the status
    is completed, the handler stores it together with the crawled data of the
    body, clears the loading flag and the interval, and (in a well-formed
    world, as every reachable world is) the callback of [h] makes no request
    any more.  In scenario A the component ends with the
    task t1 completed, its result stored, no interval left, and exactly three
    status requests made. *)
Theorem poll_loop_fixed_interval :
  (forall w i, Worlds.reachable w -> In i (App.intervals w) -> App.delay i = 2000)
  /\ (forall w id o p h data st,
         App.find_pending id w = Some p ->
         App.p_cont p = App.AfterStatus h ->
         App.p_k p o = Return data ->
         get data "status" = inr (VString st) ->
         st = "in_progress" \/ st = "initiated" ->
         let w' := App.settle id o w in
         App.taskStatus (App.app w') = VString st
         /\ App.intervals w' = App.intervals w
         /\ App.sent w' = App.sent w)
  /\ (forall w id o p h data result,
         Worlds.wf w ->
         App.find_pending id w = Some p ->
         App.p_cont p = App.AfterStatus h ->
         App.p_k p o = Return data ->
         get data "status" = inr (VString "completed") ->
         get data "crawled_data" = inr result ->
         let w' := App.settle id o w in
         App.taskStatus (App.app w') = VString "completed"
         /\ App.crawledData (App.app w') = result
         /\ App.taskId (App.app w') = App.taskId (App.app w)
         /\ App.loading (App.app w') = false
         /\ ~ In h (App.handles w')
         /\ App.tick h w' = w'
         /\ (forall evs,
                App.requests_of (App.AfterStatus h) (App.exec w' evs)
                = App.requests_of (App.AfterStatus h) w))
  /\ (App.snapshot (App.app Scenarios.world_A)
      = (VString "t1", VString "completed", Scenarios.example_result)
      /\ App.loading (App.app Scenarios.world_A) = false
      /\ App.errorMessage (App.app Scenarios.world_A) = ""
      /\ App.intervals Scenarios.world_A = []
      /\ App.requests_of (App.AfterStatus 0) Scenarios.world_A
         = [ status_request (VString "t1"); status_request (VString "t1");
             status_request (VString "t1") ]
      /\ map fst (App.sent Scenarios.world_A)
         = [ App.AfterSubmit; App.AfterStatus 0; App.AfterStatus 0; App.AfterStatus 0 ]).
Proof.
  split; [ | split; [ | split] ].
  - intros w i Hr Hin. apply AppFacts.wf_reachable in Hr. destruct Hr as [_ H2 _ _].
    rewrite Forall_forall in H2. apply (H2 i Hin).
  - intros w id o p h data st Hfind Hcont Hk Hst Hnon w'.
    subst w'. rewrite (AppFacts.settle_found id o w p Hfind), Hk, Hcont.
    simpl App.run. unfold App.status_then. rewrite Hst.
    destruct Hnon as [-> | ->]; simpl; repeat split.
  - intros w id o p h data result Hwf Hfind Hcont Hk Hst Hcd w'.
    assert (Ew : w' = App.with_app (App.setCrawledData result)
                        (App.with_app (App.setLoading false)
                           (App.clearInterval h
                              (App.with_app (App.setTaskStatus (VString "completed"))
                                            (App.remove_pending id w))))).
    { subst w'. rewrite (AppFacts.settle_found id o w p Hfind), Hk, Hcont.
      simpl App.run. unfold App.status_then. rewrite Hst. simpl. rewrite Hcd.
      reflexivity. }
    assert (Hnot : ~ In h (App.handles w')).
    { rewrite Ew.
      apply (AppFacts.not_in_cleared h
               (App.with_app (App.setTaskStatus (VString "completed"))
                             (App.remove_pending id w))). }
    assert (Hret : Worlds.retired h w').
    { split; [ | exact Hnot]. rewrite Ew; simpl.
      apply AppFacts.find_pending_some in Hfind as [Hin _].
      destruct Hwf as [_ _ _ H4]. rewrite Forall_forall in H4. apply (H4 p Hin h Hcont). }
    split; [rewrite Ew; reflexivity | ].
    split; [rewrite Ew; reflexivity | ].
    split; [rewrite Ew; reflexivity | ].
    split; [rewrite Ew; reflexivity | ].
    split; [exact Hnot | ].
    split; [apply AppFacts.tick_cleared, Hnot | ].
    intros evs.
    assert (Hwf' : Worlds.wf w') by (subst w'; apply AppFacts.wf_settle, Hwf).
    destruct (AppFacts.quiet_exec h evs w' Hwf' Hret) as (_ & _ & ->).
    rewrite Ew; reflexivity.
  - vm_compute. repeat split.
Qed.

(** C9. The crawled data is written only by a completed poll.  Whenever an
    event changes the stored crawled data, the event is the settling of a
    status call that returned a body whose status is completed.  A poll that
    ends the loop with the status failed, or with an error, leaves the
    crawled data and the task id as they were. *)
Theorem crawled_data_written_on_completed_only :
  (forall w e,
      App.crawledData (App.app (App.step w e)) <> App.crawledData (App.app w) ->
      exists id o p h data,
        e = App.Settle id o
        /\ App.find_pending id w = Some p
        /\ App.p_cont p = App.AfterStatus h
        /\ App.p_k p o = Return data
        /\ get data "status" = inr (VString "completed"))
  /\ (forall w id o p h data,
         App.find_pending id w = Some p ->
         App.p_cont p = App.AfterStatus h ->
         App.p_k p o = Return data ->
         get data "status" = inr (VString "failed") ->
         let w' := App.settle id o w in
         App.crawledData (App.app w') = App.crawledData (App.app w)
         /\ App.taskId (App.app w') = App.taskId (App.app w)
         /\ App.errorMessage (App.app w') = "Task failed."
         /\ ~ In h (App.handles w'))
  /\ (forall w id o p h error,
         App.find_pending id w = Some p ->
         App.p_cont p = App.AfterStatus h ->
         App.p_k p o = Throw error ->
         let w' := App.settle id o w in
         App.crawledData (App.app w') = App.crawledData (App.app w)
         /\ App.taskId (App.app w') = App.taskId (App.app w)
         /\ ~ In h (App.handles w')).
Proof.
  split; [ | split].
  - intros w e Hchg.
    destruct e as [v | key | | h | id o]; simpl in Hchg.
    + exfalso; apply Hchg; reflexivity.
    + exfalso; apply Hchg. unfold App.handleKeyPress.
      destruct (String.eqb key "Enter"); [ | reflexivity].
      destruct (ValidateUrl.validateUrl _); [ | reflexivity].
      pose proof (AppFacts.startCrawl_snapshot
                    (App.with_app (App.setIsUrlValid true) w)) as E.
      unfold App.snapshot in E; injection E as _ _ E; exact E.
    + exfalso; apply Hchg. unfold App.handleClick.
      destruct (App.button_disabled _); [reflexivity | ].
      pose proof (AppFacts.startCrawl_snapshot w) as E.
      unfold App.snapshot in E; injection E as _ _ E; exact E.
    + exfalso; apply Hchg. unfold App.tick.
      destruct (find _ (App.intervals w)); [ | reflexivity].
      rewrite checkTaskStatus_unfold; reflexivity.
    + unfold App.settle in Hchg.
      destruct (App.find_pending id w) as [p | ] eqn:Hfind;
        [ | exfalso; apply Hchg; reflexivity].
      destruct (App.p_k p o) as [data | error | req k] eqn:Hk; simpl in Hchg.
      * destruct (App.p_cont p) as [ | h ] eqn:Hcont.
        { exfalso; apply Hchg. unfold App.submit_then.
          destruct (get data "task_id"); reflexivity. }
        unfold App.status_then in Hchg.
        destruct (get data "status") as [error | st] eqn:Hst;
          [exfalso; apply Hchg; reflexivity | ].
        destruct (strict_eq_string st "completed") eqn:Hc.
        -- apply AppFacts.strict_eq_string_true in Hc; subst st.
           exists id, o, p, h, data; auto.
        -- exfalso; apply Hchg. simpl.
           destruct (strict_eq_string st "failed"); reflexivity.
      * exfalso; apply Hchg. destruct (App.p_cont p); reflexivity.
      * exfalso; apply Hchg; reflexivity.
  - intros w id o p h data Hfind Hcont Hk Hst w'.
    subst w'. rewrite (AppFacts.settle_found id o w p Hfind), Hk, Hcont.
    simpl App.run. unfold App.status_then. rewrite Hst. simpl.
    repeat split.
    apply (AppFacts.not_in_cleared h
             (App.with_app (App.setTaskStatus (VString "failed"))
                           (App.remove_pending id w))).
  - intros w id o p h error Hfind Hcont Hk w'.
    subst w'. rewrite (AppFacts.settle_found id o w p Hfind), Hk, Hcont.
    simpl App.run. repeat split.
    apply (AppFacts.not_in_cleared h
             (App.with_app (App.setErrorMessage ("Network error: " ++ message error))
                           (App.remove_pending id w))).
Qed.

(** C2 (the code differs). For the answer the README documents, a 200 body
    with the field [taskId], [startCrawl] of App.js reads the field
    [task_id]: it stores [undefined] as the task id and the poll loop asks
    for the status of the task named undefined. *)
Theorem documented_task_id_not_stored :
  get Scenarios.documented_start_response "taskId" = inr (VString "12345")
  /\ App.taskId (App.app Scenarios.world_documented) = VUndefined
  /\ map App.polled (App.intervals Scenarios.world_documented) = [VUndefined]
  /\ map req_url (App.requests_of (App.AfterStatus 0) Scenarios.world_documented)
     = ["http://localhost:8000/task-status/undefined"].
Proof. vm_compute. repeat split. Qed.

(** C1 (as stated, false). In scenario D the second start call, made with
    the Enter key while task t3 is polling, leaves the poll loop of t3
    running beside the loop of t4, and when the poll of t3 that was in flight
    returns completed, its result replaces the status and the crawled data
    shown for t4.  The same happens without the Enter key: when the interval
    of t3 fired twice and its second poll ended the loop, the first poll is
    still in flight after the next start call made with the button, and its
    late result is stored for t4. *)
Lemma supersede_counterexample :
  (map App.polled (App.intervals Scenarios.world_D) = [VString "t3"; VString "t4"]
   /\ map App.p_cont (App.inflight Scenarios.world_D) = [App.AfterStatus 0]
   /\ App.snapshot (App.app Scenarios.world_D) = (VString "t4", VString "", VObject [])
   /\ App.snapshot (App.app (App.step Scenarios.world_D Scenarios.stale_result))
      = (VString "t4", VString "completed", Scenarios.example_result)
   /\ App.snapshot (App.app (App.step Scenarios.world_D Scenarios.stale_result))
      <> App.snapshot (App.app Scenarios.world_D))
  /\
  (map App.polled (App.intervals Scenarios.world_late_result) = [VString "t4"]
   /\ map App.p_cont (App.inflight Scenarios.world_late_result) = [App.AfterStatus 0]
   /\ App.snapshot (App.app Scenarios.world_late_result)
      = (VString "t4", VString "failed", VObject [])
   /\ App.snapshot (App.app (App.step Scenarios.world_late_result Scenarios.stale_result))
      = (VString "t4", VString "completed", Scenarios.example_result)
   /\ App.snapshot (App.app (App.step Scenarios.world_late_result Scenarios.stale_result))
      <> App.snapshot (App.app Scenarios.world_late_result)).
Proof. vm_compute. repeat split; discriminate. Qed.

(** C1 (amended). A start call cancels nothing: the two events that start a
    crawl leave every interval active and every awaited call in flight, and
    do not touch the task id, the task status or the crawled data.  An
    interval stops being active only when a status call of its own callback
    settles.  The result of a status call is applied whichever interval it
    belongs to: its status is stored, and its crawled data when the status
    is completed; the task id is never changed by it. *)
Theorem start_cancels_no_poll_loop :
  (forall w e,
      Worlds.is_start e = true ->
      App.intervals (App.step w e) = App.intervals w
      /\ (exists new, App.inflight (App.step w e) = (App.inflight w ++ new)%list)
      /\ App.snapshot (App.app (App.step w e)) = App.snapshot (App.app w))
  /\ (forall w e x,
         In x (App.handles w) -> ~ In x (App.handles (App.step w e)) ->
         exists id o p,
           e = App.Settle id o
           /\ App.find_pending id w = Some p
           /\ App.p_cont p = App.AfterStatus x)
  /\ (forall w id o p h data st,
         App.find_pending id w = Some p ->
         App.p_cont p = App.AfterStatus h ->
         App.p_k p o = Return data ->
         get data "status" = inr st ->
         let w' := App.settle id o w in
         App.taskStatus (App.app w') = st
         /\ App.taskId (App.app w') = App.taskId (App.app w)
         /\ (forall result,
                st = VString "completed" ->
                get data "crawled_data" = inr result ->
                App.crawledData (App.app w') = result)).
Proof.
  split; [ | split].
  - intros w e He. destruct e as [v | key | | h | id o]; simpl in He; try discriminate; simpl.
    + unfold App.handleKeyPress. destruct (String.eqb key "Enter").
      * destruct (ValidateUrl.validateUrl _).
        -- rewrite AppFacts.startCrawl_intervals, AppFacts.startCrawl_snapshot.
           split; [reflexivity | split; [ | reflexivity] ].
           apply (AppFacts.startCrawl_inflight (App.with_app (App.setIsUrlValid true) w)).
        -- split; [reflexivity | split; [ | reflexivity] ].
           exists []; simpl; rewrite app_nil_r; reflexivity.
      * split; [reflexivity | split; [ | reflexivity] ].
        exists []; simpl; rewrite app_nil_r; reflexivity.
    + unfold App.handleClick. destruct (App.button_disabled _).
      * split; [reflexivity | split; [ | reflexivity] ].
        exists []; simpl; rewrite app_nil_r; reflexivity.
      * rewrite AppFacts.startCrawl_intervals, AppFacts.startCrawl_snapshot.
        split; [reflexivity | split; [ | reflexivity] ].
        apply AppFacts.startCrawl_inflight.
  - intros w e x Hin Hout.
    destruct e as [v | key | | h | id o]; simpl in Hout.
    + exfalso; apply Hout; exact Hin.
    + exfalso; apply Hout. unfold App.handleKeyPress.
      destruct (String.eqb key "Enter"); [ | exact Hin].
      destruct (ValidateUrl.validateUrl _); [ | exact Hin].
      unfold App.handles. rewrite AppFacts.startCrawl_intervals. exact Hin.
    + exfalso; apply Hout. unfold App.handleClick.
      destruct (App.button_disabled _); [exact Hin | ].
      unfold App.handles. rewrite AppFacts.startCrawl_intervals. exact Hin.
    + exfalso; apply Hout. unfold App.tick.
      destruct (find _ (App.intervals w)); [ | exact Hin].
      rewrite checkTaskStatus_unfold. exact Hin.
    + unfold App.settle in Hout.
      destruct (App.find_pending id w) as [p | ] eqn:Hfind;
        [ | exfalso; apply Hout; exact Hin].
      assert (Hin' : In x (App.handles (App.remove_pending id w))) by exact Hin.
      destruct (App.p_cont p) as [ | h ] eqn:Hcont.
      * exfalso; apply Hout.
        destruct (App.p_k p o) as [data | error | req k]; simpl.
        -- apply AppFacts.in_submit_then, Hin'.
        -- exact Hin.
        -- exact Hin.
      * destruct (Nat.eq_dec x h) as [-> | Hne]; [exists id, o, p; auto | ].
        exfalso; apply Hout.
        destruct (App.p_k p o) as [data | error | req k]; simpl.
        -- apply AppFacts.in_status_then; assumption.
        -- apply AppFacts.in_status_catch; assumption.
        -- exact Hin.
  - intros w id o p h data st Hfind Hcont Hk Hst w'.
    subst w'. rewrite (AppFacts.settle_found id o w p Hfind), Hk, Hcont.
    simpl App.run. unfold App.status_then. rewrite Hst.
    destruct (strict_eq_string st "completed" || strict_eq_string st "failed") eqn:Ht.
    + destruct (strict_eq_string st "completed") eqn:Hc.
      * destruct (get data "crawled_data") as [error | cd] eqn:Hcd.
        -- repeat split. intros result _ Hr; discriminate.
        -- repeat split. intros result _ Hr; injection Hr as <-; reflexivity.
      * repeat split. intros result -> _. discriminate Hc.
    + repeat split. intros result -> _. discriminate Ht.
Qed.

(** C3 (as stated, false). After scenario A has completed task t1, a fresh
    start call for another seed is accepted and in flight, and the task id,
    the task status and the crawled data still are those of t1. *)
Lemma fresh_start_counterexample :
  App.startUrl (App.app Scenarios.world_restarted) = "https://other.com"
  /\ App.loading (App.app Scenarios.world_restarted) = true
  /\ map App.p_cont (App.inflight Scenarios.world_restarted) = [App.AfterSubmit]
  /\ App.snapshot (App.app Scenarios.world_restarted)
     = (VString "t1", VString "completed", Scenarios.example_result)
  /\ App.snapshot (App.app Scenarios.world_restarted)
     <> App.snapshot App.initial_state.
Proof. vm_compute. repeat split. discriminate. Qed.

(** C3 (amended). Completed and failed end the poll loop: the handler of
    such a status clears the interval and the loading flag, and the cleared
    interval makes no request when it is fired.  A start call leaves the task
    id, the task status and the crawled data as the previous life cycle left
    them; for a valid seed it sets the loading flag, marks the URL valid,
    clears the error message and submits the seed. *)
Theorem start_keeps_previous_task_fields :
  (forall w id o p h data st,
      App.find_pending id w = Some p ->
      App.p_cont p = App.AfterStatus h ->
      App.p_k p o = Return data ->
      get data "status" = inr (VString st) ->
      st = "completed" \/ st = "failed" ->
      let w' := App.settle id o w in
      ~ In h (App.handles w')
      /\ App.loading (App.app w') = false
      /\ App.tick h w' = w')
  /\ (forall w, App.snapshot (App.app (App.startCrawl w)) = App.snapshot (App.app w))
  /\ (forall w,
         ValidateUrl.validateUrl (App.startUrl (App.app w)) = true ->
         let w' := App.startCrawl w in
         App.loading (App.app w') = true
         /\ App.isUrlValid (App.app w') = true
         /\ App.errorMessage (App.app w') = ""
         /\ App.sent w'
            = (App.sent w
                 ++ [(App.AfterSubmit, start_request (App.startUrl (App.app w)))])%list).
Proof.
  split; [ | split].
  - intros w id o p h data st Hfind Hcont Hk Hst Hterm w'.
    subst w'. rewrite (AppFacts.settle_found id o w p Hfind), Hk, Hcont.
    simpl App.run.
    destruct (AppFacts.status_then_clears_terminal h data st
                (App.remove_pending id w) Hst Hterm) as [Hnot Hload].
    split; [exact Hnot | split; [exact Hload | apply AppFacts.tick_cleared, Hnot] ].
  - apply AppFacts.startCrawl_snapshot.
  - intros w Hvalid w'. subst w'. unfold App.startCrawl. rewrite Hvalid. simpl negb.
    cbv iota. rewrite startCrawl_unfold. simpl. repeat split.
Qed.

(** C4. The validator is a total predicate on strings that accepts exactly
    the seeds of the grammar: an optional scheme that is http or https, a
    host name of dot-separated labels or a dotted quad, an optional port, an
    optional path, query and fragment.  It returns false on everything else;
    in particular on every text that puts a name other than http or https in
    front of "://", such as the ftp address of its documentation. *)
Theorem validateUrl_accepts_the_seed_grammar :
  (forall url, ValidateUrl.validateUrl url = true
               <-> SeedGrammar.acceptable_seed (list_ascii_of_string url))
  /\ (forall url, ValidateUrl.validateUrl url = false
                  <-> ~ SeedGrammar.acceptable_seed (list_ascii_of_string url))
  /\ (forall name rest,
         ~ In ":"%char (list_ascii_of_string name) ->
         map Regex.to_lower (list_ascii_of_string name) <> list_ascii_of_string "http" ->
         map Regex.to_lower (list_ascii_of_string name) <> list_ascii_of_string "https" ->
         ValidateUrl.validateUrl (name ++ "://" ++ rest) = false)
  /\ ValidateUrl.validateUrl "https://www.example.com" = true
  /\ ValidateUrl.validateUrl "ftp://example.com" = false
  /\ ValidateUrl.validateUrl "not a url" = false.
Proof.
  assert (Hspec := ValidateUrlFacts.validateUrl_spec).
  assert (Hneg : forall url, ValidateUrl.validateUrl url = false
                             <-> ~ SeedGrammar.acceptable_seed (list_ascii_of_string url)).
  { intros url. rewrite <- Hspec. destruct (ValidateUrl.validateUrl url); split;
      congruence. }
  split; [exact Hspec | split; [exact Hneg | split] ].
  - intros name rest Hcolon Hhttp Hhttps. apply Hneg.
    assert (E : list_ascii_of_string (name ++ "://" ++ rest)
                = (list_ascii_of_string name
                     ++ list_ascii_of_string "://" ++ list_ascii_of_string rest)%list).
    { clear. induction name as [ | c name IH ]; simpl; [reflexivity | ].
      f_equal; exact IH. }
    rewrite E. apply ValidateUrlFacts.other_scheme_not_acceptable; assumption.
  - vm_compute. repeat split.
Qed.

(** ** The scenarios of the design document, run *)

(** Scenario B: nothing is sent and the task fields stay as they were at the
    start. *)
Example scenario_B_stays_idle :
  App.sent Scenarios.world_B = []
  /\ App.inflight Scenarios.world_B = []
  /\ App.intervals Scenarios.world_B = []
  /\ App.snapshot (App.app Scenarios.world_B) = App.snapshot App.initial_state
  /\ App.loading (App.app Scenarios.world_B) = false.
Proof. vm_compute. repeat split. Qed.

(** Scenario C: the first poll of task t2 fails in the transport; the error
    is shown, the loop is over, and firing the old interval sends nothing. *)
Example scenario_C_fails :
  App.taskId (App.app (App.settle 1 (Failed "Failed to fetch") Scenarios.world_C))
  = VString "t2"
  /\ App.errorMessage (App.app (App.settle 1 (Failed "Failed to fetch") Scenarios.world_C))
     = "Network error: Failed to fetch"
  /\ App.loading (App.app (App.settle 1 (Failed "Failed to fetch") Scenarios.world_C))
     = false
  /\ App.intervals (App.settle 1 (Failed "Failed to fetch") Scenarios.world_C) = []
  /\ List.length
       (App.sent (App.exec (App.settle 1 (Failed "Failed to fetch") Scenarios.world_C)
                           [App.Tick 0; App.Tick 0]))
     = 2.
Proof. vm_compute. repeat split. Qed.

(** ** The theorems at concrete worlds *)

Lemma validateUrl_accepts_the_seed_grammar_witness :
  ValidateUrl.validateUrl ("gopher" ++ "://" ++ "example.com/a") = false.
Proof.
  apply (proj1 (proj2 (proj2 validateUrl_accepts_the_seed_grammar)) "gopher" "example.com/a").
  - simpl. intros H. repeat (destruct H as [H | H]; [discriminate H | ]). exact H.
  - simpl. discriminate.
  - simpl. discriminate.
Defined.

Lemma pending_status_in_C :
  App.find_pending 1 Scenarios.world_C = Some Scenarios.pending_status.
Proof. vm_compute. reflexivity. Qed.

Lemma pending_status_in_D :
  App.find_pending 1 Scenarios.world_D = Some Scenarios.pending_status.
Proof. vm_compute. reflexivity. Qed.

Lemma pending_submit_in_submitting :
  App.find_pending 0 Scenarios.world_submitting = Some Scenarios.pending_submit.
Proof. vm_compute. reflexivity. Qed.

Lemma world_C_wf : Worlds.wf Scenarios.world_C.
Proof. apply AppFacts.wf_reachable. exists Scenarios.scenario_C; reflexivity. Qed.

Lemma poll_loop_fixed_interval_witness :
  Forall (fun i => App.delay i = 2000) (App.intervals Scenarios.world_C)
  /\ App.taskStatus
       (App.app (App.settle 1 (Scenarios.ok_json (Scenarios.status_body "in_progress"))
                            Scenarios.world_C))
     = VString "in_progress"
  /\ App.crawledData
       (App.app (App.settle 1 (Scenarios.ok_json
                                 (Scenarios.completed_body Scenarios.example_result))
                            Scenarios.world_C))
     = Scenarios.example_result.
Proof.
  split; [ | split].
  - apply Forall_forall. intros i Hi.
    apply (proj1 poll_loop_fixed_interval Scenarios.world_C i); [ | exact Hi].
    exists Scenarios.scenario_C; reflexivity.
  - exact (proj1 (proj1 (proj2 poll_loop_fixed_interval) Scenarios.world_C 1
                    (Scenarios.ok_json (Scenarios.status_body "in_progress"))
                    Scenarios.pending_status 0 (Scenarios.status_body "in_progress")
                    "in_progress" pending_status_in_C eq_refl eq_refl eq_refl
                    (or_introl eq_refl))).
  - exact (proj1 (proj2 (proj1 (proj2 (proj2 poll_loop_fixed_interval))
                    Scenarios.world_C 1
                    (Scenarios.ok_json (Scenarios.completed_body Scenarios.example_result))
                    Scenarios.pending_status 0
                    (Scenarios.completed_body Scenarios.example_result)
                    Scenarios.example_result
                    world_C_wf pending_status_in_C eq_refl eq_refl eq_refl eq_refl))).
Defined.

Lemma typed_invalid_is_invalid :
  ValidateUrl.validateUrl (App.startUrl (App.app Scenarios.world_typed_invalid)) = false.
Proof. vm_compute. reflexivity. Qed.

Lemma invalid_seed_refused_witness :
  App.sent (App.startCrawl Scenarios.world_typed_invalid)
  = App.sent Scenarios.world_typed_invalid
  /\ App.snapshot (App.app (App.startCrawl Scenarios.world_typed_invalid))
     = App.snapshot (App.app Scenarios.world_typed_invalid)
  /\ App.errorMessage (App.app (App.startCrawl Scenarios.world_typed_invalid))
     = "Invalid URL."
  /\ App.sent (App.step Scenarios.world_typed_invalid App.Click)
     = App.sent Scenarios.world_typed_invalid
  /\ App.snapshot (App.app (App.step Scenarios.world_typed_invalid App.Click))
     = App.snapshot (App.app Scenarios.world_typed_invalid).
Proof.
  destruct (invalid_seed_refused Scenarios.world_typed_invalid typed_invalid_is_invalid)
    as [(Hs & _ & _ & Hsnap & _ & _ & Hmsg & _) Hev].
  destruct (Hev App.Click eq_refl) as (Hs' & _ & _ & Hsnap' & _).
  split; [exact Hs | split; [exact Hsnap | split; [exact Hmsg | split] ] ].
  - exact Hs'.
  - exact Hsnap'.
Defined.

Lemma world_C_failed_no_interval :
  App.intervals (App.settle 1 (Failed "Failed to fetch") Scenarios.world_C) = [].
Proof. vm_compute. reflexivity. Qed.

Lemma world_C_failed_no_submit :
  Worlds.no_submit_in_flight
    (App.settle 1 (Failed "Failed to fetch") Scenarios.world_C).
Proof.
  assert (E : App.inflight (App.settle 1 (Failed "Failed to fetch") Scenarios.world_C) = [])
    by (vm_compute; reflexivity).
  unfold Worlds.no_submit_in_flight. rewrite E. constructor.
Qed.

Lemma poll_error_ends_polling_witness :
  App.errorMessage
    (App.app (App.settle 1 (Failed "Failed to fetch") Scenarios.world_C))
  = "Network error: Failed to fetch"
  /\ App.loading (App.app (App.settle 1 (Failed "Failed to fetch") Scenarios.world_C))
     = false
  /\ App.taskId (App.app (App.settle 1 (Failed "Failed to fetch") Scenarios.world_C))
     = App.taskId (App.app Scenarios.world_C)
  /\ App.requests_of (App.AfterStatus 0)
       (App.exec (App.settle 1 (Failed "Failed to fetch") Scenarios.world_C)
                 [App.Tick 0; App.Tick 0])
     = App.requests_of (App.AfterStatus 0) Scenarios.world_C
  /\ App.sent (App.exec (App.settle 1 (Failed "Failed to fetch") Scenarios.world_C)
                        [App.Tick 0; App.UrlChange "https://other.com"; App.Tick 0])
     = App.sent Scenarios.world_C.
Proof.
  destruct (poll_error_ends_polling Scenarios.world_C 1 (Failed "Failed to fetch")
              Scenarios.pending_status 0 (Rejection "Failed to fetch")
              world_C_wf pending_status_in_C eq_refl eq_refl)
    as (Hmsg & Hload & Hid & Hquiet & _ & Hidle).
  split; [exact Hmsg | split; [exact Hload | split; [exact Hid | split] ] ].
  - exact (proj2 (Hquiet [App.Tick 0; App.Tick 0])).
  - exact (proj1 (proj2 (Hidle [App.Tick 0; App.UrlChange "https://other.com"; App.Tick 0]
                               eq_refl world_C_failed_no_interval
                               world_C_failed_no_submit))).
Defined.

Lemma submission_failure_is_atomic_witness :
  App.snapshot
    (App.app (App.settle 0 (Failed "Failed to fetch") Scenarios.world_submitting))
  = App.snapshot (App.app Scenarios.world_submitting)
  /\ App.errorMessage
       (App.app (App.settle 0 (Failed "Failed to fetch") Scenarios.world_submitting))
     = "Network error: Failed to fetch"
  /\ App.loading
       (App.app (App.settle 0 (Failed "Failed to fetch") Scenarios.world_submitting))
     = false
  /\ App.intervals (App.settle 0 (Failed "Failed to fetch") Scenarios.world_submitting)
     = App.intervals Scenarios.world_submitting.
Proof.
  destruct (submission_failure_is_atomic Scenarios.world_submitting 0
              (Failed "Failed to fetch") Scenarios.pending_submit
              (Rejection "Failed to fetch") pending_submit_in_submitting eq_refl eq_refl)
    as (Hsnap & Hmsg & Hload & _ & _ & Hint & _).
  split; [exact Hsnap | split; [exact Hmsg | split; [exact Hload | exact Hint] ] ].
Defined.

Lemma stale_result_changes_crawled_data :
  App.crawledData (App.app (App.step Scenarios.world_D Scenarios.stale_result))
  <> App.crawledData (App.app Scenarios.world_D).
Proof. vm_compute. discriminate. Qed.

Lemma crawled_data_written_on_completed_only_witness :
  App.crawledData
    (App.app (App.settle 1 (Scenarios.ok_json (Scenarios.status_body "failed"))
                         Scenarios.world_C))
  = App.crawledData (App.app Scenarios.world_C)
  /\ App.crawledData
       (App.app (App.settle 1 (Failed "Failed to fetch") Scenarios.world_C))
     = App.crawledData (App.app Scenarios.world_C)
  /\ exists id o, Scenarios.stale_result = App.Settle id o.
Proof.
  destruct crawled_data_written_on_completed_only as (H1 & H2 & H3).
  split; [ | split].
  - exact (proj1 (H2 Scenarios.world_C 1
                     (Scenarios.ok_json (Scenarios.status_body "failed"))
                     Scenarios.pending_status 0 (Scenarios.status_body "failed")
                     pending_status_in_C eq_refl eq_refl eq_refl)).
  - exact (proj1 (H3 Scenarios.world_C 1 (Failed "Failed to fetch")
                     Scenarios.pending_status 0 (Rejection "Failed to fetch")
                     pending_status_in_C eq_refl eq_refl)).
  - destruct (H1 Scenarios.world_D Scenarios.stale_result
                 stale_result_changes_crawled_data)
      as (id & o & _ & _ & _ & E & _).
    exists id, o; exact E.
Defined.

Lemma start_cancels_no_poll_loop_witness :
  App.intervals (App.step Scenarios.world_C (App.KeyPress "Enter"))
  = App.intervals Scenarios.world_C
  /\ App.taskStatus (App.app (App.settle 1 (Scenarios.ok_json
                                              (Scenarios.status_body "in_progress"))
                                         Scenarios.world_D))
     = VString "in_progress".
Proof.
  destruct start_cancels_no_poll_loop as (H1 & _ & H3).
  split.
  - exact (proj1 (H1 Scenarios.world_C (App.KeyPress "Enter") eq_refl)).
  - exact (proj1 (H3 Scenarios.world_D 1
                     (Scenarios.ok_json (Scenarios.status_body "in_progress"))
                     Scenarios.pending_status 0 (Scenarios.status_body "in_progress")
                     (VString "in_progress") pending_status_in_D eq_refl eq_refl eq_refl)).
Defined.

Lemma world_A_seed_is_valid :
  ValidateUrl.validateUrl (App.startUrl (App.app Scenarios.world_A)) = true.
Proof. vm_compute. reflexivity. Qed.

Lemma start_keeps_previous_task_fields_witness :
  App.loading
    (App.app (App.settle 1 (Scenarios.ok_json (Scenarios.status_body "failed"))
                         Scenarios.world_C))
  = false
  /\ App.loading (App.app (App.startCrawl Scenarios.world_A)) = true.
Proof.
  destruct start_keeps_previous_task_fields as (H1 & _ & H3).
  split.
  - exact (proj1 (proj2 (H1 Scenarios.world_C 1
                            (Scenarios.ok_json (Scenarios.status_body "failed"))
                            Scenarios.pending_status 0 (Scenarios.status_body "failed")
                            "failed" pending_status_in_C eq_refl eq_refl eq_refl
                            (or_intror eq_refl)))).
  - exact (proj1 (H3 Scenarios.world_A world_A_seed_is_valid)).
Defined.

End Claims.

(* ================================================================== *)
(** * Further facts about the validator                               *)
(* ================================================================== *)

Module ValidatorFacts.
Import Regex RegexFacts ValidateUrl SeedGrammar ValidateUrlFacts Terms.

Local Open Scope char_scope.

Lemma chars_of_append (a b : string) :
  list_ascii_of_string (a ++ b)
  = (list_ascii_of_string a ++ list_ascii_of_string b)%list.
Proof.
  induction a as [ | c a IH ]; simpl; [reflexivity | ]. f_equal; exact IH.
Qed.

(** ** Letter case *)

Lemma to_lower_idem (c : ascii) : to_lower (to_lower c) = to_lower c.
Proof.
  apply Ascii.eqb_eq. revert c. apply forall_ascii. vm_compute. reflexivity.
Qed.

Lemma to_upper_lower (c : ascii) : to_upper (to_lower c) = to_upper c.
Proof.
  apply Ascii.eqb_eq. revert c. apply forall_ascii. vm_compute. reflexivity.
Qed.

Lemma own_case (c : ascii) : c = to_lower c \/ c = to_upper c.
Proof.
  assert (H : Ascii.eqb c (to_lower c) || Ascii.eqb c (to_upper c) = true).
  { revert c. apply forall_ascii. vm_compute. reflexivity. }
  apply orb_true_iff in H as [H | H]; apply Ascii.eqb_eq in H; auto.
Qed.

Lemma item_has_lower (i : cset_item) (c : ascii) :
  item_has i (to_lower c)
  || (item_has i (to_lower (to_lower c)) || item_has i (to_upper (to_lower c)))
  = item_has i c || (item_has i (to_lower c) || item_has i (to_upper c)).
Proof.
  rewrite to_lower_idem, to_upper_lower.
  destruct (item_has i (to_lower c)) eqn:Hl; [rewrite !orb_true_r; reflexivity | ].
  destruct (item_has i (to_upper c)) eqn:Hu; [rewrite !orb_true_r; reflexivity | ].
  simpl. rewrite orb_false_r.
  destruct (own_case c) as [E | E]; rewrite E at 1; symmetry; assumption.
Qed.

Lemma cset_mem_lower (cs : cset) (c : ascii) :
  cset_mem true cs (to_lower c) = cset_mem true cs c.
Proof.
  unfold cset_mem. induction cs as [ | i cs IH ]; [reflexivity | ].
  cbn [existsb andb] in *. rewrite IH, item_has_lower. reflexivity.
Qed.

Lemma deriv_lower (r : regex) (c : ascii) :
  deriv true (to_lower c) r = deriv true c r.
Proof.
  induction r as [ | | cs | a IHa b IHb | a IHa b IHb | a IHa ]; simpl;
    rewrite ?cset_mem_lower, ?IHa, ?IHb; reflexivity.
Qed.

Lemma matches_lower (r : regex) (s : list ascii) :
  matches true r (map to_lower s) = matches true r s.
Proof.
  revert r; induction s as [ | c s IH ]; intros r; simpl; [reflexivity | ].
  rewrite deriv_lower. apply IH.
Qed.

Lemma validateUrl_lower (url : string) :
  validateUrl (lower_string url) = validateUrl url.
Proof.
  unfold validateUrl, test, lower_string.
  rewrite list_ascii_of_string_of_list_ascii. apply matches_lower.
Qed.

(** ** The alphabet *)

Lemma lang_alphabet (icase : bool) (r : regex) (s : list ascii) :
  lang icase r s -> Forall (fun c => matched_somewhere icase r c = true) s.
Proof.
  revert s; induction r as [ | | cs | a IHa b IHb | a IHa b IHb | a IHa ];
    intros s H; simpl in *.
  - contradiction.
  - subst s; constructor.
  - destruct H as (c & -> & Hc). constructor; [exact Hc | constructor].
  - destruct H as (s1 & s2 & -> & H1 & H2). apply Forall_app; split.
    + eapply Forall_impl; [ | apply IHa, H1 ]. intros c Hc; simpl in Hc.
      rewrite Hc; reflexivity.
    + eapply Forall_impl; [ | apply IHb, H2 ]. intros c Hc; simpl in Hc.
      rewrite Hc; apply orb_true_r.
  - destruct H as [H | H].
    + eapply Forall_impl; [ | apply IHa, H ]. intros c Hc; simpl in Hc.
      rewrite Hc; reflexivity.
    + eapply Forall_impl; [ | apply IHb, H ]. intros c Hc; simpl in Hc.
      rewrite Hc; apply orb_true_r.
  - destruct H as (ss & -> & Hall).
    induction Hall as [ | p ss Hp _ IH ]; simpl; [constructor | ].
    apply Forall_app; split; [apply IHa, Hp | exact IH].
Qed.

Lemma pattern_alphabet (c : ascii) : matched_somewhere true pattern c = url_char c.
Proof.
  apply eqb_prop. revert c. apply forall_ascii. vm_compute. reflexivity.
Qed.

Lemma accepted_chars (url : string) :
  validateUrl url = true ->
  Forall (fun c => url_char c = true) (list_ascii_of_string url).
Proof.
  unfold validateUrl, test. intros H. apply matches_lang, lang_alphabet in H.
  eapply Forall_impl; [ | exact H ]. intros c Hc; simpl in Hc.
  rewrite <- pattern_alphabet; exact Hc.
Qed.

(** ** The dot of the host *)

Lemma hostname_has_dot (h : list ascii) : hostname h -> In "." h.
Proof.
  intros [(pieces & tld & -> & Hne & Hp & _) | (a & b & c & d & -> & _)].
  - destruct Hp as [ | p ps (l & -> & _) _ ]; [congruence | ].
    simpl. apply in_or_app; left. apply in_or_app; left.
    apply in_or_app; right; left; reflexivity.
  - apply in_or_app; left. apply in_or_app; right; left; reflexivity.
Qed.

Lemma accepted_has_dot (url : string) :
  validateUrl url = true -> In "." (list_ascii_of_string url).
Proof.
  intros H. apply validateUrl_spec in H.
  destruct H as (sch & host & prt & pth & qry & frg & -> & _ & Hh & _).
  apply in_or_app; right. apply in_or_app; left. apply hostname_has_dot, Hh.
Qed.

(** ** The scheme *)

Lemma matches_null (icase : bool) (s : list ascii) : matches icase RNull s = false.
Proof. induction s as [ | c s IH ]; simpl; [reflexivity | exact IH]. Qed.

Lemma matches_append (icase : bool) (r : regex) (a b : list ascii) :
  matches icase r (a ++ b)
  = matches icase (fold_left (fun r c => deriv icase c r) a r) b.
Proof.
  revert r; induction a as [ | c a IH ]; intros r; simpl; [reflexivity | apply IH].
Qed.

Lemma after_http :
  fold_left (fun r c => deriv true c r) (list_ascii_of_string "http://") pattern
  = after_scheme.
Proof. vm_compute. reflexivity. Qed.

Lemma after_https :
  fold_left (fun r c => deriv true c r) (list_ascii_of_string "https://") pattern
  = after_scheme.
Proof. vm_compute. reflexivity. Qed.

Lemma after_scheme_no_scheme :
  fold_left (fun r c => deriv true c r) (list_ascii_of_string "http:") after_scheme
  = RNull.
Proof. vm_compute. reflexivity. Qed.

Lemma validateUrl_http (rest : string) :
  validateUrl ("http://" ++ rest) = matches true after_scheme (list_ascii_of_string rest).
Proof.
  unfold validateUrl, test. rewrite chars_of_append, matches_append, after_http.
  reflexivity.
Qed.

Lemma validateUrl_https (rest : string) :
  validateUrl ("https://" ++ rest) = matches true after_scheme (list_ascii_of_string rest).
Proof.
  unfold validateUrl, test. rewrite chars_of_append, matches_append, after_https.
  reflexivity.
Qed.

Lemma after_scheme_accepted (rest : string) :
  matches true after_scheme (list_ascii_of_string rest) = true ->
  validateUrl rest = true.
Proof.
  unfold validateUrl, test. rewrite !matches_lang. intros H.
  unfold pattern. apply lang_seq. exists [], (list_ascii_of_string rest).
  split; [reflexivity | split; [ | exact H] ].
  apply lang_protocol. left; reflexivity.
Qed.

End ValidatorFacts.

(* ================================================================== *)
(** * Further facts about the component                               *)
(* ================================================================== *)

Module ComponentFacts.
Import Js App ClientOutcomes CrawlServiceFacts Worlds AppFacts Terms.

Local Open Scope string_scope.

(** ** Request numbers *)

Lemma fresh_ids_initial : fresh_ids initial_world.
Proof. constructor. Qed.

Lemma fresh_ids_issue (req : request) (k : fetch_outcome -> async value)
      (c : continuation) (w : world) :
  fresh_ids w -> fresh_ids (issue req k c w).
Proof.
  unfold fresh_ids; simpl. intros H. apply Forall_app; split.
  - eapply Forall_impl; [ | exact H ]. simpl; intros; lia.
  - constructor; [simpl; lia | constructor].
Qed.

Lemma fresh_ids_remove_pending (id : nat) (w : world) :
  fresh_ids w -> fresh_ids (remove_pending id w).
Proof.
  unfold fresh_ids; simpl. intros H. rewrite Forall_forall in *.
  intros p Hp. apply filter_In in Hp as [Hp _]. apply H, Hp.
Qed.

Lemma same_network_refl (w : world) : same_network w w.
Proof. repeat split. Qed.

Lemma same_network_submit_catch (e : exn) (w : world) :
  same_network w (submit_catch e w).
Proof. repeat split. Qed.

Lemma same_network_status_catch (h : nat) (e : exn) (w : world) :
  same_network w (status_catch h e w).
Proof. repeat split. Qed.

Lemma same_network_submit_then (data : value) (w : world) :
  same_network w (submit_then data w).
Proof. unfold submit_then. destruct (get data "task_id"); repeat split. Qed.

Lemma same_network_status_then (h : nat) (data : value) (w : world) :
  same_network w (status_then h data w).
Proof.
  unfold status_then. destruct (get data "status") as [e | st]; [repeat split | ].
  destruct (strict_eq_string st "completed" || strict_eq_string st "failed");
    [ | repeat split].
  destruct (strict_eq_string st "completed"); [ | repeat split].
  destruct (get data "crawled_data"); repeat split.
Qed.

Lemma same_network_run_settled (m : async value) (c : continuation) (w : world) :
  settled m -> same_network w (run m c w).
Proof.
  intros Hm; destruct m as [data | e | req k]; simpl in *; [ | | tauto]; destruct c;
    auto using same_network_submit_then, same_network_status_then,
      same_network_submit_catch, same_network_status_catch.
Qed.

Lemma fresh_ids_same_network (w w' : world) :
  same_network w w' -> fresh_ids w -> fresh_ids w'.
Proof. unfold fresh_ids; intros (E1 & E2 & _) H. rewrite E1, E2. exact H. Qed.

Lemma fresh_ids_run (m : async value) (c : continuation) (w : world) :
  fresh_ids w -> fresh_ids (run m c w).
Proof.
  intros H; destruct m as [data | e | req k].
  - apply (fresh_ids_same_network w); [ | exact H].
    apply same_network_run_settled; exact I.
  - apply (fresh_ids_same_network w); [ | exact H].
    apply same_network_run_settled; exact I.
  - apply fresh_ids_issue, H.
Qed.

Lemma fresh_ids_startCrawl (w : world) : fresh_ids w -> fresh_ids (App.startCrawl w).
Proof.
  intros H; unfold App.startCrawl.
  destruct (negb (ValidateUrl.validateUrl (startUrl (app w)))); [exact H | ].
  apply fresh_ids_run. exact H.
Qed.

Lemma fresh_ids_step (w : world) (e : event) : fresh_ids w -> fresh_ids (step w e).
Proof.
  intros H; destruct e as [v | key | | h | id o]; simpl.
  - exact H.
  - unfold handleKeyPress. destruct (String.eqb key "Enter"); [ | exact H].
    destruct (ValidateUrl.validateUrl _); [ | exact H].
    apply fresh_ids_startCrawl. exact H.
  - unfold handleClick. destruct (button_disabled _);
      [exact H | apply fresh_ids_startCrawl, H].
  - unfold tick. destruct (find _ (intervals w)); [apply fresh_ids_run, H | exact H].
  - unfold settle. destruct (find_pending id w); [ | exact H].
    apply fresh_ids_run, fresh_ids_remove_pending, H.
Qed.

Lemma fresh_ids_exec (evs : list event) (w : world) :
  fresh_ids w -> fresh_ids (exec w evs).
Proof.
  revert w; induction evs as [ | e evs IH ]; intros w H; simpl; [exact H | ].
  apply IH, fresh_ids_step, H.
Qed.

Lemma fresh_ids_reachable (w : world) : reachable w -> fresh_ids w.
Proof. intros (evs & ->); apply fresh_ids_exec, fresh_ids_initial. Qed.

(** The fetch of a request just made settles: its handler runs in the world
    that has the request on record. *)
Lemma settle_issued (req : request) (k : fetch_outcome -> async value)
      (c : continuation) (o : fetch_outcome) (w : world) :
  fresh_ids w ->
  settle (next_request w) o (issue req k c w) = run (k o) c (after_request c req w).
Proof.
  intros H. unfold settle, find_pending, remove_pending, issue, after_request; simpl.
  assert (Hold : forall l, Forall (fun p => p_id p < next_request w) l ->
            find (fun p => Nat.eqb (p_id p) (next_request w))
                 (l ++ [{| p_id := next_request w; p_k := k; p_cont := c |}])
            = Some {| p_id := next_request w; p_k := k; p_cont := c |}
            /\ filter (fun p => negb (Nat.eqb (p_id p) (next_request w))) l = l).
  { induction 1 as [ | p l Hp _ [IH1 IH2] ]; simpl.
    - rewrite Nat.eqb_refl; auto.
    - assert (E : Nat.eqb (p_id p) (next_request w) = false)
        by (apply Nat.eqb_neq; lia).
      rewrite E; simpl. rewrite IH2; auto. }
  destruct (Hold (inflight w) H) as [Hfind Hfilter].
  rewrite Hfind; simpl. rewrite filter_app, Hfilter; simpl.
  rewrite Nat.eqb_refl; simpl. rewrite app_nil_r. reflexivity.
Qed.

(** ** What each handler sends *)

Lemma startCrawl_valid (w : world) :
  ValidateUrl.validateUrl (startUrl (app w)) = true ->
  App.startCrawl w
  = issue (start_request (startUrl (app w))) startCrawl_k AfterSubmit
          (with_app submitting w).
Proof.
  intros H. unfold App.startCrawl. rewrite H. simpl negb. cbv iota.
  rewrite startCrawl_unfold. reflexivity.
Qed.

Lemma startCrawl_sent (w : world) :
  sent (App.startCrawl w)
  = if ValidateUrl.validateUrl (startUrl (app w))
    then (sent w ++ [(AfterSubmit, start_request (startUrl (app w)))])%list
    else sent w.
Proof.
  destruct (ValidateUrl.validateUrl (startUrl (app w))) eqn:E.
  - rewrite (startCrawl_valid w E). reflexivity.
  - unfold App.startCrawl. rewrite E. reflexivity.
Qed.

Lemma tick_active (h : nat) (i : interval) (w : world) :
  find (fun i => Nat.eqb (handle i) h) (intervals w) = Some i ->
  tick h w = issue (status_request (polled i)) checkTaskStatus_k (AfterStatus h) w.
Proof. intros H. unfold tick. rewrite H, checkTaskStatus_unfold. reflexivity. Qed.

Lemma tick_sent (h : nat) (w : world) :
  sent (tick h w)
  = match find (fun i => Nat.eqb (handle i) h) (intervals w) with
    | Some i => (sent w ++ [(AfterStatus h, status_request (polled i))])%list
    | None => sent w
    end.
Proof.
  destruct (find _ (intervals w)) as [i | ] eqn:E.
  - rewrite (tick_active h i w E). reflexivity.
  - unfold tick. rewrite E. reflexivity.
Qed.

Lemma settle_sent (id : nat) (o : fetch_outcome) (w : world) :
  wf w -> sent (settle id o w) = sent w.
Proof.
  intros Hwf. unfold settle.
  destruct (find_pending id w) as [p | ] eqn:E; [ | reflexivity].
  apply find_pending_some in E as [Hin _].
  destruct Hwf as [_ _ H3 _]. rewrite Forall_forall in H3.
  destruct (same_network_run_settled (p_k p o) (p_cont p) (remove_pending id w)
              (H3 p Hin o)) as (_ & _ & ->).
  reflexivity.
Qed.

Lemma step_sent (w : world) (e : event) :
  wf w ->
  sent (step w e) = sent w
  \/ (may_send e = true /\ exists entry,
         sent (step w e) = (sent w ++ [entry])%list /\ allowed_request entry).
Proof.
  intros Hwf. destruct e as [v | key | | h | id o]; simpl.
  - left; reflexivity.
  - unfold handleKeyPress. destruct (String.eqb key "Enter"); [ | left; reflexivity].
    destruct (ValidateUrl.validateUrl (startUrl (app w))) eqn:E; [ | left; reflexivity].
    right; split; [reflexivity | ].
    rewrite startCrawl_sent. simpl. rewrite E.
    eexists; split; [reflexivity | ]. exists (startUrl (app w)); auto.
  - unfold handleClick. destruct (button_disabled _); [left; reflexivity | ].
    rewrite startCrawl_sent.
    destruct (ValidateUrl.validateUrl (startUrl (app w))) eqn:E; [ | left; reflexivity].
    right; split; [reflexivity | ].
    eexists; split; [reflexivity | ]. exists (startUrl (app w)); auto.
  - rewrite tick_sent. destruct (find _ (intervals w)) as [i | ]; [ | left; reflexivity].
    right; split; [reflexivity | ].
    eexists; split; [reflexivity | ]. exists (polled i); reflexivity.
  - left. apply settle_sent, Hwf.
Qed.

Lemma strict_eq_string_false (v : value) (text : string) :
  v <> VString text -> strict_eq_string v text = false.
Proof.
  intros H. destruct (strict_eq_string v text) eqn:E; [ | reflexivity].
  apply strict_eq_string_true in E. contradiction.
Qed.

(** ** The task id and the intervals *)

Lemma same_task_refl (w : world) : same_task w w.
Proof. repeat split; auto. Qed.

Lemma same_task_trans (w1 w2 w3 : world) :
  same_task w1 w2 -> same_task w2 w3 -> same_task w1 w3.
Proof.
  intros (A1 & A2 & A3) (B1 & B2 & B3); repeat split; [congruence | congruence | auto].
Qed.

Lemma same_task_clearInterval (h : nat) (w : world) : same_task w (clearInterval h w).
Proof.
  repeat split. simpl. intros i Hi. apply filter_In in Hi as [Hi _]. exact Hi.
Qed.

Lemma same_task_status_catch (h : nat) (e : exn) (w : world) :
  same_task w (status_catch h e w).
Proof.
  repeat split. simpl. intros i Hi. apply filter_In in Hi as [Hi _]. exact Hi.
Qed.

Lemma same_task_status_then (h : nat) (data : value) (w : world) :
  same_task w (status_then h data w).
Proof.
  unfold status_then.
  destruct (get data "status") as [e | st]; [apply same_task_status_catch | ].
  destruct (strict_eq_string st "completed" || strict_eq_string st "failed");
    [ | repeat split; auto].
  destruct (strict_eq_string st "completed").
  - destruct (get data "crawled_data");
      repeat split; simpl; intros i Hi;
      repeat (apply filter_In in Hi as [Hi _]); exact Hi.
  - repeat split; simpl; intros i Hi; apply filter_In in Hi as [Hi _]; exact Hi.
Qed.

Lemma same_task_startCrawl (w : world) : same_task w (App.startCrawl w).
Proof.
  unfold App.startCrawl.
  destruct (negb (ValidateUrl.validateUrl (startUrl (app w)))); [repeat split; auto | ].
  rewrite startCrawl_unfold. repeat split; auto.
Qed.

Lemma newest_same_task (w w' : world) :
  same_task w w' -> newest_polls_shown_id w -> newest_polls_shown_id w'.
Proof.
  intros (E1 & E2 & Hin) H i Hi Hs. rewrite E1. apply H; [apply Hin, Hi | congruence].
Qed.

Lemma newest_submit_then (data : value) (w : world) :
  wf w -> newest_polls_shown_id w -> newest_polls_shown_id (submit_then data w).
Proof.
  intros Hwf H. unfold submit_then.
  destruct (get data "task_id") as [e | id]; [exact H | ].
  unfold checkTaskStatus, newest_polls_shown_id; simpl. intros i Hi Hs.
  apply in_app_or in Hi as [Hi | [<- | [] ] ]; [ | reflexivity].
  destruct Hwf as [H1 _ _ _]. rewrite Forall_forall in H1.
  specialize (H1 i Hi). lia.
Qed.

Lemma newest_step (w : world) (e : event) :
  wf w -> newest_polls_shown_id w -> newest_polls_shown_id (step w e).
Proof.
  intros Hwf H. destruct e as [v | key | | h | id o]; simpl.
  - exact H.
  - unfold handleKeyPress. destruct (String.eqb key "Enter"); [ | exact H].
    destruct (ValidateUrl.validateUrl _); [ | exact H].
    apply (newest_same_task (with_app (setIsUrlValid true) w));
      [apply same_task_startCrawl | exact H].
  - unfold handleClick. destruct (button_disabled _); [exact H | ].
    apply (newest_same_task w); [apply same_task_startCrawl | exact H].
  - unfold tick. destruct (find _ (intervals w)); [ | exact H].
    rewrite checkTaskStatus_unfold. exact H.
  - unfold settle. destruct (find_pending id w) as [p | ] eqn:E; [ | exact H].
    assert (Hwf' : wf (remove_pending id w)) by (apply wf_remove_pending, Hwf).
    assert (H' : newest_polls_shown_id (remove_pending id w)) by exact H.
    destruct (p_k p o) as [data | error | req k]; simpl.
    + destruct (p_cont p).
      * apply newest_submit_then; assumption.
      * eapply newest_same_task; [apply same_task_status_then | exact H'].
    + destruct (p_cont p).
      * exact H.
      * eapply newest_same_task; [apply same_task_status_catch | exact H'].
    + exact H.
Qed.

Lemma newest_exec (evs : list event) (w : world) :
  wf w -> newest_polls_shown_id w -> newest_polls_shown_id (exec w evs).
Proof.
  revert w; induction evs as [ | e evs IH ]; intros w Hwf H; simpl; [exact H | ].
  apply IH; [apply wf_step, Hwf | apply newest_step; assumption].
Qed.

(** ** The error message *)

Lemma run_error_message (m : async value) (c : continuation) (w : world) :
  errorMessage (app w) <> "" -> errorMessage (app (run m c w)) <> "".
Proof.
  intros H. destruct m as [data | e | req k]; simpl.
  - destruct c as [ | h ].
    + unfold submit_then. destruct (get data "task_id"); [discriminate | exact H].
    + unfold status_then. destruct (get data "status") as [e | st]; [discriminate | ].
      destruct (strict_eq_string st "completed" || strict_eq_string st "failed");
        [ | exact H].
      destruct (strict_eq_string st "completed"); [ | discriminate].
      destruct (get data "crawled_data"); [discriminate | exact H].
  - destruct c; discriminate.
  - exact H.
Qed.

(** ** Rounds of the poll loop *)




End ComponentFacts.

(* ================================================================== *)
(** * Facts about the render                                          *)
(* ================================================================== *)

Module RenderFacts.
Import Js App Render.

Local Open Scope string_scope.

Lemma UrlData_returns (key : nat) (url : string) (links : value) :
  (exists item, UrlData key url links = inr item) <-> listable links = true.
Proof.
  destruct links as [ | | b | text | str | items | props ]; simpl;
    try (split; [intros (item & H); discriminate | discriminate]).
  destruct (forallb valid_child items); split; eauto; try discriminate.
  intros (item & H); discriminate.
Qed.

Lemma url_data_list_returns (index : nat) (es : list (string * value)) :
  (exists items, url_data_list index es = inr items)
  <-> forallb (fun e => listable (snd e)) es = true.
Proof.
  revert index; induction es as [ | [url links] es IH ]; intros index; simpl.
  - split; eauto.
  - rewrite andb_true_iff, <- (IH (S index)), <- (UrlData_returns index url links).
    destruct (UrlData index url links) as [e | item].
    + split; [intros (items & H); discriminate | ].
      intros [(item & H) _]; discriminate.
    + destruct (url_data_list (S index) es) as [e | items].
      * split; [intros (items & H); discriminate | ].
        intros [_ (items & H)]; discriminate.
      * split; eauto.
Qed.

(** The part of the pass that lists the crawled data. *)
Lemma crawled_part_throws (s : state) :
  (crawled_entries s = inr None
   /\ strict_eq_string (taskStatus s) "completed" = false)
  \/ (exists e, crawled_entries s = inl e
                /\ strict_eq_string (taskStatus s) "completed" = true
                /\ showable (crawledData s) = false)
  \/ (exists es, crawled_entries s = inr (Some es)
                 /\ strict_eq_string (taskStatus s) "completed" = true
                 /\ ((exists e, crawled_slot (Some es) = inl e)
                     <-> showable (crawledData s) = false)).
Proof.
  unfold crawled_entries, showable.
  destruct (strict_eq_string (taskStatus s) "completed"); [ | left; auto].
  right. destruct (entries (crawledData s)) as [e | es]; [left; eauto | right].
  exists es. split; [reflexivity | split; [reflexivity | ] ].
  pose proof (url_data_list_returns 0 es) as H. unfold crawled_slot.
  destruct (url_data_list 0 es) as [e | items].
  - split; [intros _ | eauto].
    destruct (forallb _ es); [ | reflexivity].
    destruct (proj2 H eq_refl) as (items & Hi); discriminate.
  - split; [intros (e & He); discriminate | ].
    intros Hf. rewrite (proj1 H) in Hf by eauto. discriminate.
Qed.

Lemma task_info_slot_throws (s : state) :
  (exists e, task_info_slot s = inl e) <-> task_info_fails s = true.
Proof.
  unfold task_info_slot, task_info_fails, TaskInfo, as_child.
  destruct (loading s); simpl; [split; [intros (e & H); discriminate | discriminate] | ].
  destruct (truthy (taskId s)); simpl;
    [ | split; [intros (e & H); discriminate | discriminate] ].
  destruct (valid_child (taskId s)); simpl; [ | split; eauto].
  destruct (valid_child (taskStatus s)); simpl; [ | split; eauto].
  split; [intros (e & H); discriminate | discriminate].
Qed.

Lemma render_throws (s : state) :
  (exists e, render s = inl e)
  <-> (strict_eq_string (taskStatus s) "completed" = true
       /\ showable (crawledData s) = false)
      \/ task_info_fails s = true.
Proof.
  rewrite <- task_info_slot_throws. unfold render.
  destruct (crawled_part_throws s)
    as [ [E Hs] | [ (e & E & Hs & Hd) | (es & E & Hs & Hd) ] ]; rewrite E.
  - simpl. destruct (task_info_slot s) as [e | ti].
    + split; eauto.
    + split; [intros (e & H); discriminate | ].
      intros [ [Hc _] | (e & H) ]; [congruence | discriminate].
  - split; eauto.
  - destruct (task_info_slot s) as [e | ti]; [split; eauto | ].
    destruct (crawled_slot (Some es)) as [e | cs].
    + split; [intros _; left; split; [exact Hs | apply Hd; eauto] | eauto].
    + split; [intros (e & H); discriminate | ].
      intros [ [_ Hf] | (e & H) ]; [ | discriminate].
      apply Hd in Hf as (e & H); discriminate.
Qed.

Lemma url_data_list_pages (index : nat) (pages : list (string * list value)) :
  Forall (fun page => forallb valid_child (snd page) = true) pages ->
  url_data_list index (map (fun page => (fst page, VArray (snd page))) pages)
  = inr (Terms.accordions index pages).
Proof.
  intros H; revert index;
    induction H as [ | [url links] pages Hl _ IH ]; intros index; simpl;
    [reflexivity | ].
  simpl in Hl. rewrite Hl, IH. reflexivity.
Qed.

End RenderFacts.


(* ================================================================== *)
(** * Further properties                                              *)
(* ================================================================== *)

Module Extras.
Import Js.
Import ClientOutcomes Terms.

Local Open Scope string_scope.

(** X1. The validator ignores letter case: two texts with the same lower
    case get the same verdict. *)
Theorem validateUrl_ignores_case (a b : string) :
  lower_string a = lower_string b ->
  ValidateUrl.validateUrl a = ValidateUrl.validateUrl b.
Proof.
  intros H. rewrite <- (ValidatorFacts.validateUrl_lower a),
                    <- (ValidatorFacts.validateUrl_lower b), H.
  reflexivity.
Qed.

Lemma validateUrl_ignores_case_witness :
  ValidateUrl.validateUrl "HTTPS://WWW.Example.COM/About"
  = ValidateUrl.validateUrl "https://www.example.com/about".
Proof.
  apply (validateUrl_ignores_case "HTTPS://WWW.Example.COM/About"
                                  "https://www.example.com/about").
  vm_compute. reflexivity.
Defined.

(** X2. Every character of an accepted text is a letter, a digit or one of
    - . _ ~ % + : / ? # ; & =, so a text with a blank, an at sign, a bracket
    or a character outside ASCII is refused. *)
Theorem validateUrl_alphabet (url : string) (c : ascii) :
  In c (list_ascii_of_string url) ->
  url_char c = false ->
  ValidateUrl.validateUrl url = false.
Proof.
  intros Hin Hc. destruct (ValidateUrl.validateUrl url) eqn:E; [ | reflexivity].
  apply ValidatorFacts.accepted_chars in E. rewrite Forall_forall in E.
  apply E in Hin. congruence.
Qed.

Lemma validateUrl_alphabet_witness :
  ValidateUrl.validateUrl "http://user@example.com" = false.
Proof.
  apply (validateUrl_alphabet "http://user@example.com" "@"%char).
  - vm_compute. tauto.
  - vm_compute. reflexivity.
Defined.

(** X3. An accepted text has a dot in its host, so a text without any dot,
    such as a bare host name with a port, is refused. *)
Theorem validateUrl_needs_dot (url : string) :
  ~ In "."%char (list_ascii_of_string url) ->
  ValidateUrl.validateUrl url = false.
Proof.
  intros Hno. destruct (ValidateUrl.validateUrl url) eqn:E; [ | reflexivity].
  exfalso; apply Hno, ValidatorFacts.accepted_has_dot, E.
Qed.

Lemma validateUrl_needs_dot_witness :
  ValidateUrl.validateUrl CrawlService.BACKEND_BASE_URL = false.
Proof.
  apply (validateUrl_needs_dot CrawlService.BACKEND_BASE_URL).
  vm_compute. intros H. repeat (destruct H as [H | H]; [discriminate H | ]). exact H.
Defined.

(** X4. The two schemes are treated alike and the scheme is optional: a
    text is accepted behind https:// exactly when it is accepted behind
    http://, it is then accepted on its own too, and a second scheme behind
    the first is never accepted. *)
Theorem validateUrl_scheme_is_optional (rest : string) :
  ValidateUrl.validateUrl ("https://" ++ rest) = ValidateUrl.validateUrl ("http://" ++ rest)
  /\ (ValidateUrl.validateUrl ("http://" ++ rest) = true ->
      ValidateUrl.validateUrl rest = true)
  /\ ValidateUrl.validateUrl ("http://" ++ "http://" ++ rest) = false.
Proof.
  split; [ | split].
  - rewrite ValidatorFacts.validateUrl_http, ValidatorFacts.validateUrl_https.
    reflexivity.
  - rewrite ValidatorFacts.validateUrl_http.
    apply ValidatorFacts.after_scheme_accepted.
  - rewrite ValidatorFacts.validateUrl_http.
    change ("http://" ++ rest) with ("http:" ++ ("//" ++ rest)).
    rewrite ValidatorFacts.chars_of_append, ValidatorFacts.matches_append,
      ValidatorFacts.after_scheme_no_scheme.
    apply ValidatorFacts.matches_null.
Qed.

Lemma validateUrl_scheme_is_optional_witness :
  ValidateUrl.validateUrl "example.com/about" = true.
Proof.
  apply (proj1 (proj2 (validateUrl_scheme_is_optional "example.com/about"))).
  vm_compute. reflexivity.
Defined.

(** X5. Nothing unvalidated reaches the network.  In every reachable world
    each request on record was made either by [startCrawl], and then it is
    the submission of a seed the validator accepts, or by an interval
    callback, and then it is a status request. *)
Theorem only_validated_requests (w : App.world) :
  Worlds.reachable w -> Forall allowed_request (App.sent w).
Proof.
  intros (evs & ->).
  assert (H : forall evs w0, Worlds.wf w0 -> Forall allowed_request (App.sent w0) ->
                             Forall allowed_request (App.sent (App.exec w0 evs))).
  { clear evs. induction evs as [ | e evs IH ]; intros w0 Hwf Hs; simpl; [exact Hs | ].
    apply IH; [apply AppFacts.wf_step, Hwf | ].
    destruct (ComponentFacts.step_sent w0 e Hwf) as [-> | (_ & entry & -> & Ha)];
      [exact Hs | ].
    apply Forall_app; split; [exact Hs | constructor; [exact Ha | constructor] ]. }
  apply H; [apply AppFacts.wf_initial | constructor].
Qed.

Lemma only_validated_requests_witness :
  Forall allowed_request (App.sent Scenarios.world_D).
Proof.
  apply (only_validated_requests Scenarios.world_D).
  exists Scenarios.scenario_D; reflexivity.
Defined.

(** X6. Requests are made by start events and timer ticks only, one at
    most for each.  In a well-formed world, typing and the settling of a
    fetch send nothing (no retry, no request chained to an answer), and over
    any sequence of events the number of requests grows by no more than the
    number of key presses, clicks and ticks in it. *)
Theorem requests_only_on_start_and_tick (w : App.world) (evs : list App.event) :
  Worlds.wf w ->
  (forall e, may_send e = false -> App.sent (App.step w e) = App.sent w)
  /\ List.length (App.sent (App.exec w evs))
     <= List.length (App.sent w) + List.length (filter may_send evs).
Proof.
  intros Hwf. split.
  - intros e He. destruct (ComponentFacts.step_sent w e Hwf) as [E | (Hm & _)];
      [exact E | congruence].
  - revert w Hwf. induction evs as [ | e evs IH ]; intros w Hwf; simpl; [lia | ].
    specialize (IH (App.step w e) (AppFacts.wf_step w e Hwf)).
    destruct (ComponentFacts.step_sent w e Hwf) as [E | (Hm & entry & E & _)].
    + rewrite E in IH. destruct (may_send e); simpl; lia.
    + rewrite E, length_app in IH. rewrite Hm. simpl in *. lia.
Qed.

Lemma requests_only_on_start_and_tick_witness :
  List.length (App.sent (App.exec App.initial_world Scenarios.scenario_A))
  <= List.length (App.sent App.initial_world)
     + List.length (filter may_send Scenarios.scenario_A).
Proof.
  apply (requests_only_on_start_and_tick App.initial_world Scenarios.scenario_A).
  apply AppFacts.wf_initial.
Defined.

(** X7. A successful submission starts exactly one poll loop.  When
    [startCrawl] runs on a seed the validator accepts and the backend answers
    its request with a success status and a readable body, the component
    stores the [task_id] of the body as the task id, adds one interval of
    2000 ms that polls this id, keeps the loading flag set and the error
    message empty, has made the one submit request, and leaves the task
    status, the crawled data, the other intervals and the other fetches as
    they were. *)
Theorem submission_starts_one_poll_loop (w : App.world) (r : response)
        (data id : value) :
  fresh_ids w ->
  ValidateUrl.validateUrl (App.startUrl (App.app w)) = true ->
  ok r = true ->
  json r = inr data ->
  get data "task_id" = inr id ->
  let w' := App.settle (App.next_request w) (Resolved r) (App.startCrawl w) in
  App.taskId (App.app w') = id
  /\ App.intervals w'
     = (App.intervals w
          ++ [{| App.handle := App.next_handle w; App.delay := 2000;
                 App.polled := id |}])%list
  /\ App.loading (App.app w') = true
  /\ App.errorMessage (App.app w') = ""
  /\ App.taskStatus (App.app w') = App.taskStatus (App.app w)
  /\ App.crawledData (App.app w') = App.crawledData (App.app w)
  /\ App.inflight w' = App.inflight w
  /\ App.sent w'
     = (App.sent w
          ++ [(App.AfterSubmit, start_request (App.startUrl (App.app w)))])%list.
Proof.
  intros Hfresh Hvalid Hok Hjson Hget w'. subst w'.
  rewrite (ComponentFacts.startCrawl_valid w Hvalid).
  change (App.next_request w) with (App.next_request (App.with_app submitting w)).
  rewrite ComponentFacts.settle_issued by exact Hfresh.
  pose proof (CrawlServiceFacts.startCrawl_k_cases (Resolved r)) as Hk.
  simpl in Hk. rewrite Hok, Hjson in Hk. rewrite Hk.
  simpl App.run. unfold App.submit_then. rewrite Hget.
  repeat split.
Qed.

Lemma submission_starts_one_poll_loop_witness :
  App.taskId
    (App.app (App.settle (App.next_request Scenarios.world_A)
                         (Scenarios.ok_json (VObject [("task_id", VString "t9")]))
                         (App.startCrawl Scenarios.world_A)))
  = VString "t9".
Proof.
  refine (proj1 (submission_starts_one_poll_loop Scenarios.world_A
                   {| status := 200; json := inr (VObject [("task_id", VString "t9")]) |}
                   (VObject [("task_id", VString "t9")]) (VString "t9")
                   _ _ eq_refl eq_refl eq_refl)).
  - apply ComponentFacts.fresh_ids_reachable. exists Scenarios.scenario_A; reflexivity.
  - vm_compute. reflexivity.
Defined.

(** X8. A refused submission shows the status code and nothing of the
    body.  When [startCrawl] runs on a seed the validator accepts and the
    backend answers with a status outside 200..299, the error message is
    "Network error: HTTP error! status: " followed by the status code,
    whatever the body of the answer says; when the transport fails, the
    message carries the reason of the failure.  In both cases the loading
    flag is cleared and the task id, the task status, the crawled data, the
    intervals and the other fetches are as before the call. *)
Theorem refused_submission_shows_status (w : App.world) :
  fresh_ids w ->
  ValidateUrl.validateUrl (App.startUrl (App.app w)) = true ->
  (forall r,
      ok r = false ->
      let w' := App.settle (App.next_request w) (Resolved r) (App.startCrawl w) in
      App.errorMessage (App.app w')
      = "Network error: HTTP error! status: " ++ show_nat (status r)
      /\ App.loading (App.app w') = false
      /\ App.snapshot (App.app w') = App.snapshot (App.app w)
      /\ App.intervals w' = App.intervals w
      /\ App.inflight w' = App.inflight w)
  /\ (forall reason,
         let w' := App.settle (App.next_request w) (Failed reason) (App.startCrawl w) in
         App.errorMessage (App.app w') = "Network error: " ++ reason
         /\ App.loading (App.app w') = false
         /\ App.snapshot (App.app w') = App.snapshot (App.app w)
         /\ App.intervals w' = App.intervals w
         /\ App.inflight w' = App.inflight w).
Proof.
  intros Hfresh Hvalid. split.
  - intros r Hok w'. subst w'.
    rewrite (ComponentFacts.startCrawl_valid w Hvalid).
    change (App.next_request w) with (App.next_request (App.with_app submitting w)).
    rewrite ComponentFacts.settle_issued by exact Hfresh.
    pose proof (CrawlServiceFacts.startCrawl_k_cases (Resolved r)) as Hk.
    simpl in Hk. rewrite Hok in Hk. rewrite Hk.
    repeat split.
  - intros reason w'. subst w'.
    rewrite (ComponentFacts.startCrawl_valid w Hvalid).
    change (App.next_request w) with (App.next_request (App.with_app submitting w)).
    rewrite ComponentFacts.settle_issued by exact Hfresh.
    pose proof (CrawlServiceFacts.startCrawl_k_cases (Failed reason)) as Hk.
    simpl in Hk. rewrite Hk.
    repeat split.
Qed.

Lemma world_A_fresh : fresh_ids Scenarios.world_A.
Proof. apply ComponentFacts.fresh_ids_reachable. exists Scenarios.scenario_A; reflexivity. Qed.

Lemma world_A_valid :
  ValidateUrl.validateUrl (App.startUrl (App.app Scenarios.world_A)) = true.
Proof. vm_compute. reflexivity. Qed.

Lemma refused_submission_shows_status_witness :
  App.errorMessage
    (App.app (App.settle (App.next_request Scenarios.world_A)
                (Resolved {| status := 400;
                             json := inr (VObject [("error",
                                                    VString "Invalid URL provided")]) |})
                (App.startCrawl Scenarios.world_A)))
  = "Network error: HTTP error! status: " ++ show_nat 400.
Proof.
  exact (proj1 (proj1 (refused_submission_shows_status Scenarios.world_A
                         world_A_fresh world_A_valid)
                      {| status := 400;
                         json := inr (VObject [("error",
                                                VString "Invalid URL provided")]) |}
                      eq_refl)).
Defined.





(** X10. An error message stays until the next accepted start.  If an event
    takes the component from a non-empty error message to an empty one, the
    event is a key press or a click and the text in the field is a seed the
    validator accepts; typing, timer ticks and answers of the backend never
    clear a message. *)
Theorem error_message_cleared_by_start_only (w : App.world) (e : App.event) :
  App.errorMessage (App.app w) <> "" ->
  App.errorMessage (App.app (App.step w e)) = "" ->
  Worlds.is_start e = true
  /\ ValidateUrl.validateUrl (App.startUrl (App.app w)) = true.
Proof.
  intros Hmsg Hclear. destruct e as [v | key | | h | id o]; simpl in *.
  - contradiction.
  - unfold App.handleKeyPress in Hclear.
    destruct (String.eqb key "Enter"); [ | contradiction].
    destruct (ValidateUrl.validateUrl (App.startUrl (App.app w))); [auto | contradiction].
  - unfold App.handleClick in Hclear.
    destruct (App.button_disabled _); [contradiction | ].
    unfold App.startCrawl in Hclear.
    destruct (ValidateUrl.validateUrl (App.startUrl (App.app w))); [auto | ].
    simpl in Hclear. discriminate.
  - exfalso. unfold App.tick in Hclear.
    destruct (find _ (App.intervals w)); [ | contradiction].
    apply (ComponentFacts.run_error_message _ _ w Hmsg Hclear).
  - exfalso. unfold App.settle in Hclear.
    destruct (App.find_pending id w); [ | contradiction].
    apply (ComponentFacts.run_error_message _ _ (App.remove_pending id w) Hmsg Hclear).
Qed.

Lemma world_retyped_shows_error : App.errorMessage (App.app world_retyped) <> "".
Proof. vm_compute. discriminate. Qed.

Lemma world_retyped_click_clears :
  App.errorMessage (App.app (App.step world_retyped App.Click)) = "".
Proof. vm_compute. reflexivity. Qed.

Lemma error_message_cleared_by_start_only_witness :
  Worlds.is_start App.Click = true
  /\ ValidateUrl.validateUrl (App.startUrl (App.app world_retyped)) = true.
Proof.
  exact (error_message_cleared_by_start_only world_retyped App.Click
           world_retyped_shows_error world_retyped_click_clears).
Defined.

(** X11. The task id on display is the one the newest poll loop polls.  In
    every reachable world, if the interval made last is still active, the id
    it polls is the stored task id. *)
Theorem shown_task_id_is_newest_loop (w : App.world) :
  Worlds.reachable w -> newest_polls_shown_id w.
Proof.
  intros (evs & ->). apply ComponentFacts.newest_exec.
  - apply AppFacts.wf_initial.
  - intros i [].
Qed.

Lemma shown_task_id_is_newest_loop_witness : newest_polls_shown_id Scenarios.world_D.
Proof.
  apply (shown_task_id_is_newest_loop Scenarios.world_D).
  exists Scenarios.scenario_D; reflexivity.
Defined.

(** X12. When the render fails.  [render] throws if and only if the task
    status is completed and the crawled data cannot be listed (it is [null]
    or [undefined], or has an entry that is not an array, or a link that is a
    plain object or an array holding one), or the task info is due and the
    task id or the task status is not a child React accepts.  So when a poll
    returns completed in a world whose task id is an acceptable child, the
    next render throws exactly when the [crawled_data] of the answer cannot
    be listed, as it is for an answer without that field. *)
Theorem render_fails_on_unlistable_data :
  (forall s,
      (exists e, Render.render s = inl e)
      <-> (App.taskStatus s = VString "completed"
           /\ Render.showable (App.crawledData s) = false)
          \/ Render.task_info_fails s = true)
  /\ (forall w id o p h data result,
         App.find_pending id w = Some p ->
         App.p_cont p = App.AfterStatus h ->
         App.p_k p o = Return data ->
         get data "status" = inr (VString "completed") ->
         get data "crawled_data" = inr result ->
         Render.valid_child (App.taskId (App.app w)) = true ->
         ((exists e, Render.render (App.app (App.settle id o w)) = inl e)
          <-> Render.showable result = false)).
Proof.
  assert (H1 : forall s,
             (exists e, Render.render s = inl e)
             <-> (App.taskStatus s = VString "completed"
                  /\ Render.showable (App.crawledData s) = false)
                 \/ Render.task_info_fails s = true).
  { intros s. rewrite RenderFacts.render_throws.
    split; (intros [ [Hs Hd] | Ht ]; [left; split; auto | right; exact Ht]).
    - apply AppFacts.strict_eq_string_true, Hs.
    - rewrite Hs. reflexivity. }
  split; [exact H1 | ].
  intros w id o p h data result Hfind Hcont Hk Hst Hcd Hid.
  rewrite H1. rewrite (AppFacts.settle_found id o w p Hfind), Hk, Hcont.
  simpl App.run. unfold App.status_then. rewrite Hst. simpl. rewrite Hcd.
  unfold Render.task_info_fails. simpl. rewrite Hid. simpl.
  rewrite andb_false_r. split.
  - intros [ [_ Hd] | Hf ]; [exact Hd | discriminate].
  - intros Hd; left; auto.
Qed.

Lemma pending_status_in_world_C :
  App.find_pending 1 Scenarios.world_C = Some Scenarios.pending_status.
Proof. vm_compute. reflexivity. Qed.

Lemma world_C_task_id_is_text :
  Render.valid_child (App.taskId (App.app Scenarios.world_C)) = true.
Proof. vm_compute. reflexivity. Qed.

Lemma render_fails_on_unlistable_data_witness :
  exists e,
    Render.render
      (App.app (App.settle 1 (Scenarios.ok_json documented_status_response)
                           Scenarios.world_C))
    = inl e.
Proof.
  exact (proj2 (proj2 render_fails_on_unlistable_data Scenarios.world_C 1
                  (Scenarios.ok_json documented_status_response)
                  Scenarios.pending_status 0 documented_status_response VUndefined
                  pending_status_in_world_C eq_refl eq_refl eq_refl eq_refl
                  world_C_task_id_is_text)
               eq_refl).
Defined.

(** X13. The Enter key is not held back by the loading flag.  On a seed the
    validator accepts, pressing Enter twice sends two submissions of the
    seed, the second while the first is in flight, whereas two clicks on the
    button send one at most. *)
Theorem enter_is_not_gated (w : App.world) :
  ValidateUrl.validateUrl (App.startUrl (App.app w)) = true ->
  App.sent (App.exec w [App.KeyPress "Enter"; App.KeyPress "Enter"])
  = (App.sent w
       ++ [ (App.AfterSubmit, start_request (App.startUrl (App.app w)));
            (App.AfterSubmit, start_request (App.startUrl (App.app w))) ])%list
  /\ List.length (App.inflight (App.exec w [App.KeyPress "Enter"; App.KeyPress "Enter"]))
     = List.length (App.inflight w) + 2
  /\ List.length (App.sent (App.exec w [App.Click; App.Click]))
     <= List.length (App.sent w) + 1.
Proof.
  intros Hvalid.
  assert (Henter : forall w0,
             ValidateUrl.validateUrl (App.startUrl (App.app w0)) = true ->
             App.handleKeyPress "Enter" w0
             = App.issue (start_request (App.startUrl (App.app w0))) startCrawl_k
                         App.AfterSubmit
                         (App.with_app submitting
                            (App.with_app (App.setIsUrlValid true) w0))).
  { intros w0 H0. unfold App.handleKeyPress. simpl String.eqb. cbv iota. rewrite H0.
    apply (ComponentFacts.startCrawl_valid
             (App.with_app (App.setIsUrlValid true) w0) H0). }
  split; [ | split].
  - simpl App.exec. rewrite (Henter w Hvalid). rewrite Henter by exact Hvalid.
    simpl. rewrite <- app_assoc. reflexivity.
  - simpl App.exec. rewrite (Henter w Hvalid). rewrite Henter by exact Hvalid.
    simpl. rewrite !length_app. simpl. lia.
  - simpl App.exec. unfold App.handleClick at 2.
    destruct (App.button_disabled (App.app w)) eqn:Hd.
    + unfold App.handleClick. rewrite Hd. lia.
    + rewrite (ComponentFacts.startCrawl_valid w Hvalid).
      unfold App.handleClick. simpl. rewrite length_app. simpl. lia.
Qed.

Lemma enter_is_not_gated_witness :
  List.length
    (App.inflight (App.exec Scenarios.world_A [App.KeyPress "Enter"; App.KeyPress "Enter"]))
  = List.length (App.inflight Scenarios.world_A) + 2.
Proof.
  exact (proj1 (proj2 (enter_is_not_gated Scenarios.world_A world_A_valid))).
Defined.

(** X14. Every status but completed and failed keeps the loop polling.  When
    a status call awaited by the callback of interval [h] returns a body whose
    status is neither completed nor failed (an unknown word, a number, or
    [undefined] for a body without the field), the handler stores that status
    and changes nothing else: the intervals, the loading flag, the error
    message, the task id and the crawled data stay, and nothing is sent. *)
Theorem other_status_keeps_polling (w : App.world) (id : nat) (o : fetch_outcome)
        (p : App.pending) (h : nat) (data st : value) :
  App.find_pending id w = Some p ->
  App.p_cont p = App.AfterStatus h ->
  App.p_k p o = Return data ->
  get data "status" = inr st ->
  non_terminal st ->
  let w' := App.settle id o w in
  App.taskStatus (App.app w') = st
  /\ App.intervals w' = App.intervals w
  /\ App.loading (App.app w') = App.loading (App.app w)
  /\ App.errorMessage (App.app w') = App.errorMessage (App.app w)
  /\ App.taskId (App.app w') = App.taskId (App.app w)
  /\ App.crawledData (App.app w') = App.crawledData (App.app w)
  /\ App.sent w' = App.sent w.
Proof.
  intros Hfind Hcont Hk Hst [Hc Hf] w'. subst w'.
  rewrite (AppFacts.settle_found id o w p Hfind), Hk, Hcont.
  simpl App.run. unfold App.status_then. rewrite Hst.
  rewrite (ComponentFacts.strict_eq_string_false st "completed" Hc),
          (ComponentFacts.strict_eq_string_false st "failed" Hf).
  repeat split.
Qed.

Lemma other_status_keeps_polling_witness :
  App.taskStatus
    (App.app (App.settle 1 (Scenarios.ok_json (VObject [])) Scenarios.world_C))
  = VUndefined
  /\ App.intervals (App.settle 1 (Scenarios.ok_json (VObject [])) Scenarios.world_C)
     = App.intervals Scenarios.world_C.
Proof.
  destruct (other_status_keeps_polling Scenarios.world_C 1
              (Scenarios.ok_json (VObject [])) Scenarios.pending_status 0
              (VObject []) VUndefined
              pending_status_in_world_C eq_refl eq_refl eq_refl)
    as (H1 & H2 & _).
  - split; discriminate.
  - split; [exact H1 | exact H2].
Defined.

(** X15. A completed crawl is listed page by page.  When a poll returns
    completed, the crawled data of the answer maps each page to an array of
    links that React accepts as children (strings, for one), and the task id
    of the world is such a child too, the next render succeeds and shows one
    accordion for each page, in the order of the answer, with the page as its
    title and its links inside; the task info is shown with the status
    completed if the task id counts as true; the progress block is gone and
    the button shows its label again. *)
Theorem completed_crawl_is_listed (w : App.world) (id : nat) (o : fetch_outcome)
        (p : App.pending) (h : nat) (data : value)
        (pages : list (string * list value)) :
  App.find_pending id w = Some p ->
  App.p_cont p = App.AfterStatus h ->
  App.p_k p o = Return data ->
  get data "status" = inr (VString "completed") ->
  get data "crawled_data" = inr (crawl_result pages) ->
  Forall (fun page => forallb Render.valid_child (snd page) = true) pages ->
  Render.valid_child (App.taskId (App.app w)) = true ->
  exists v,
    Render.render (App.app (App.settle id o w)) = inr v
    /\ Render.crawled v = Render.Shown (Render.ECrawled (accordions 0 pages))
    /\ Render.task_info v
       = (if Render.truthy (App.taskId (App.app w))
          then Render.Shown (Render.ETaskInfo (App.taskId (App.app w))
                                              (VString "completed")
                                              (App.startUrl (App.app w)))
          else Render.Skipped (App.taskId (App.app w)))
    /\ Render.progress v = Render.Skipped (VBool false)
    /\ Render.button_busy v = false.
Proof.
  intros Hfind Hcont Hk Hst Hcd Hlinks Hid.
  rewrite (AppFacts.settle_found id o w p Hfind), Hk, Hcont.
  simpl App.run. unfold App.status_then. rewrite Hst. simpl. rewrite Hcd.
  unfold Render.render, Render.crawled_entries, Render.task_info_slot,
    Render.crawled_slot, Render.TaskInfo, Render.as_child.
  simpl. rewrite Hid. unfold crawl_result. simpl Render.entries.
  rewrite (RenderFacts.url_data_list_pages 0 pages Hlinks).
  destruct (Render.truthy (App.taskId (App.app w)));
    (eexists; split; [reflexivity | ]; simpl; repeat split).
Qed.

Lemma completed_crawl_is_listed_witness :
  exists v,
    Render.render
      (App.app (App.settle 1
                  (Scenarios.ok_json
                     (Scenarios.completed_body
                        (crawl_result [("https://example.com",
                                        [VString "https://example.com/about"])])))
                  Scenarios.world_C))
    = inr v
    /\ Render.crawled v
       = Render.Shown
           (Render.ECrawled
              (accordions 0 [("https://example.com",
                              [VString "https://example.com/about"])])).
Proof.
  destruct (completed_crawl_is_listed Scenarios.world_C 1
              (Scenarios.ok_json
                 (Scenarios.completed_body
                    (crawl_result [("https://example.com",
                                    [VString "https://example.com/about"])])))
              Scenarios.pending_status 0
              (Scenarios.completed_body
                 (crawl_result [("https://example.com",
                                 [VString "https://example.com/about"])]))
              [("https://example.com", [VString "https://example.com/about"])]
              pending_status_in_world_C eq_refl eq_refl eq_refl eq_refl
              (Forall_cons
                 (P := fun page : string * list value =>
                         forallb Render.valid_child (snd page) = true)
                 ("https://example.com", [VString "https://example.com/about"])
                 eq_refl (Forall_nil _))
              world_C_task_id_is_text)
    as (v & Hr & Hc & _).
  exists v; split; [exact Hr | exact Hc].
Defined.



End Extras.
